(** * pyano.piano: the [Piano] wrapper around the mingus FluidSynth sequencer

    A shallow embedding of [src/pyano/piano.py].  The [Piano] object is a
    record of its attributes; every method is a function in a state and
    exception monad over that record.  Calls made on the synthesis engine
    (mingus' [FluidSynthSequencer], [pyfluidsynth] and the [wave] file) are
    not interpreted: they are appended to a log carried by the state, so
    that "which engine call happens, and when" can be stated.  An engine
    call returns normally; the one answer of the engine the module
    branches on, the result of loading a sound font, is a parameter.  *)

From Stdlib Require Import ZArith.
From stdpp Require Import gmap strings list.

Open Scope string_scope.
Open Scope Z_scope.
Open Scope list_scope.

(** ** Python values crossing the interface *)

(** [Union[str, Path]]: [str == Path] is [False] in Python even when both
    spell the same file, so the two are kept apart. *)
Inductive path_value : Type :=
| PyStr (s : string)
| PyPath (s : string).

(** [str(sound_fonts_path)] *)
Definition path_str (p : path_value) : string :=
  match p with PyStr s => s | PyPath s => s end.

(** Python [==] on [Union[str, Path]] values. *)
Definition path_eqb (a b : path_value) : bool :=
  match a, b with
  | PyStr x, PyStr y => bool_decide (x = y)
  | PyPath x, PyPath y => bool_decide (x = y)
  | _, _ => false
  end.

(** [Union[str, int]], the [instrument] argument. *)
Inductive instrument_value : Type :=
| InstrStr (s : string)
| InstrInt (n : Z).

(** Exceptions that leave the module.  Of the messages only the fixed
    text is kept. *)
Inductive exn : Type :=
| ValueError
| Exception (msg : string)
| NoteFormatError
| IndexError
| KeyError.

(** ** Module constants *)

Definition VALID_AUDIO_DRIVERS : list (option string) :=
  [ None; Some "alsa"; Some "oss"; Some "jack"; Some "portaudio";
    Some "sndmgr"; Some "coreaudio"; Some "Direct Sound"; Some "dsound";
    Some "pulseaudio" ].

Definition DEFAULT_INSTRUMENTS : list (string * Z) :=
  [ ("Acoustic Grand Piano", 0); ("Bright Acoustic Piano", 1);
    ("Electric Grand Piano", 2); ("Honky-tonk Piano", 3);
    ("Electric Piano 1", 4); ("Electric Piano 2", 5);
    ("Harpsichord", 6); ("Clavi", 7) ].

(** Lookup in a [dict] with [str] keys. *)
Fixpoint dict_get (d : list (string * Z)) (k : string) : option Z :=
  match d with
  | [] => None
  | (k', v) :: d' => if bool_decide (k' = k) then Some v else dict_get d' k
  end.

(** [instrument in tuple(DEFAULT_INSTRUMENTS.keys())]: an [int] never
    equals a [str]. *)
Definition in_default_instruments (i : instrument_value) : bool :=
  match i with
  | InstrStr s => bool_decide (s ∈ DEFAULT_INSTRUMENTS.*1)
  | InstrInt _ => false
  end.

(** [DEFAULT_INSTRUMENTS[instrument]]; [None] stands for [KeyError]. *)
Definition default_instrument_number (i : instrument_value) : option Z :=
  match i with
  | InstrStr s => dict_get DEFAULT_INSTRUMENTS s
  | InstrInt _ => None
  end.

(** ** The world around [piano.py]

    mingus' containers, [pyano.utils.PianoUtils] and
    [pyano.keyboard.PianoKeyboard] are used by the module but defined
    elsewhere; they form an interface. *)
Class World : Type := {
  Note : Type;
  NoteContainer : Type;
  Bar : Type;
  Track : Type;
  PianoKey : Type;
  (** [pkg_resources.resource_filename("pyano", "/sound_fonts/FluidR3_GM.sf2")] *)
  default_sound_fonts_file : string;
  (** [Path(...)] applied to a string: pathlib's normal form. *)
  Path_of_str : string -> string;
  (** [Note(name)] parses a string; [Note_error name] is what mingus
      raises when it cannot. *)
  Note_of_str : string -> option Note;
  Note_error : string -> exn;
  (** pyano.utils.PianoUtils *)
  note_to_string : Note -> string;
  note_container_to_note_string_list : NoteContainer -> list string;
  bar_to_note_string_list : Bar -> list string;
  track_to_note_string_list : Track -> list string;
  (** [keyboard.distinct_key_names], and [keyboard[i].get_as_note()] with
      what it raises when there is no key [i]. *)
  distinct_key_names : gset string;
  keyboard_note : Z -> option Note;
  keyboard_error : Z -> exn
}.

(** ** The engine log *)

Inductive event `{World} : Type :=
| Sfload (sf2 : string) (sfid : Z)          (* fs.sfload(sf2), with its result *)
| Sfunload (sfid : Z)                       (* fs.sfunload(sfid) *)
| StartAudioOutput (driver : option string) (* start_audio_output(driver) *)
| ProgramReset                              (* fs.program_reset() *)
| DeleteAudioDriver                         (* fs.delete_fluid_audio_driver(fs.audio_driver) *)
| SetInstrument (channel : Z) (instr : instrument_value) (bank : Z)
| StartRecording (file : string)            (* start_recording(file) *)
| PlayNote (n : Note)
| PlayNoteContainer (nc : NoteContainer)
| PlayBar (b : Bar)
| PlayTrack (t : Track)
| GetSamples (len : Z)                      (* fs.get_samples(len) *)
| WavWriteframes (len : Z)                  (* wav.writeframes(bytes(raw_audio_string(samples))) *)
| WavClose                                  (* wav.close() *)
| StopNote (n : Note)
| StopNoteContainer (nc : NoteContainer)
| StopEverything.

(** What the engine answers to [fs.sfload(sf2)], given every call made on
    it so far (most recent first); [-1] when the file cannot be loaded. *)
Class Synth `{World} : Type := {
  sfload : list event -> string -> Z
}.

Section Piano.

Context `{S : Synth}.

Definition DEFAULT_SOUND_FONTS : path_value :=
  PyPath (Path_of_str default_sound_fonts_file).

(** [Path(x)] for [x : Union[str, Path]] *)
Definition Path (x : path_value) : path_value :=
  match x with
  | PyStr s => PyPath (Path_of_str s)
  | PyPath s => PyPath s
  end.

(** ** The object *)

Record Piano : Type := mkPiano {
  _sound_fonts_path : path_value;
  _sound_fonts_loaded : bool;
  _current_audio_driver : option string;
  _audio_driver_is_active : bool;
  instrument : instrument_value;
  sfid : Z;                 (* FluidSynthSequencer.sfid *)
  engine_log : list event   (* engine calls, most recent first *)
}.

Definition set_sound_fonts_path (v : path_value) (p : Piano) : Piano :=
  mkPiano v (_sound_fonts_loaded p) (_current_audio_driver p)
          (_audio_driver_is_active p) (instrument p) (sfid p) (engine_log p).
Definition set_sound_fonts_loaded (v : bool) (p : Piano) : Piano :=
  mkPiano (_sound_fonts_path p) v (_current_audio_driver p)
          (_audio_driver_is_active p) (instrument p) (sfid p) (engine_log p).
Definition set_current_audio_driver (v : option string) (p : Piano) : Piano :=
  mkPiano (_sound_fonts_path p) (_sound_fonts_loaded p) v
          (_audio_driver_is_active p) (instrument p) (sfid p) (engine_log p).
Definition set_audio_driver_is_active (v : bool) (p : Piano) : Piano :=
  mkPiano (_sound_fonts_path p) (_sound_fonts_loaded p) (_current_audio_driver p)
          v (instrument p) (sfid p) (engine_log p).
Definition set_instrument_attr (v : instrument_value) (p : Piano) : Piano :=
  mkPiano (_sound_fonts_path p) (_sound_fonts_loaded p) (_current_audio_driver p)
          (_audio_driver_is_active p) v (sfid p) (engine_log p).
Definition set_sfid (v : Z) (p : Piano) : Piano :=
  mkPiano (_sound_fonts_path p) (_sound_fonts_loaded p) (_current_audio_driver p)
          (_audio_driver_is_active p) (instrument p) v (engine_log p).
Definition log_event (e : event) (p : Piano) : Piano :=
  mkPiano (_sound_fonts_path p) (_sound_fonts_loaded p) (_current_audio_driver p)
          (_audio_driver_is_active p) (instrument p) (sfid p) (e :: engine_log p).

(** ** State and exception monad *)

Inductive outcome (A : Type) : Type :=
| Return (a : A) (p : Piano)
| Raise (e : exn) (p : Piano).
Arguments Return {A} a p.
Arguments Raise {A} e p.

Definition M (A : Type) : Type := Piano -> outcome A.

Definition ret {A} (a : A) : M A := fun p => Return a p.
Definition raise {A} (e : exn) : M A := fun p => Raise e p.
Definition bind {A B} (m : M A) (k : A -> M B) : M B :=
  fun p => match m p with
           | Return a p' => k a p'
           | Raise e p' => Raise e p'
           end.
Definition get {A} (f : Piano -> A) : M A := fun p => Return (f p) p.
Definition modify (f : Piano -> Piano) : M unit := fun p => Return tt (f p).
Definition call (e : event) : M unit := modify (log_event e).

Notation "'let*' x ':=' m 'in' k" := (bind m (fun x => k))
  (at level 10, x name, m at level 100, k at level 200, only parsing).
Notation "m >> k" := (bind m (fun _ : unit => k))
  (at level 62, right associativity, only parsing).

(** The state an invocation leaves behind, however it ends. *)
Definition final {A} (o : outcome A) : Piano :=
  match o with Return _ p => p | Raise _ p => p end.

Definition raised {A} (o : outcome A) : option exn :=
  match o with Return _ _ => None | Raise e _ => Some e end.

(** ** FluidSynthSequencer.load_sound_font (mingus)

    [self.sfid = self.fs.sfload(sf2); return not self.sfid == -1] *)
Definition load_sound_font (sf2 : string) : M bool :=
  let* log := get engine_log in
  let id := sfload log sf2 in
  call (Sfload sf2 id) >>
  modify (set_sfid id) >>
  ret (negb (id =? -1)).

(** ** Piano._unload_sound_fonts *)
Definition _unload_sound_fonts : M unit :=
  let* loaded := get _sound_fonts_loaded in
  if loaded then
    let* id := get sfid in
    call (Sfunload id)
  else ret tt.

(** ** Piano.load_sound_fonts *)
Definition load_sound_fonts (sound_fonts_path : path_value) : M unit :=
  let* loaded := get _sound_fonts_loaded in
  (if loaded then _unload_sound_fonts else ret tt) >>
  let* ok := load_sound_font (path_str sound_fonts_path) in
  if negb ok then raise (Exception "Could not load sound fonts")
  else
    modify (set_sound_fonts_loaded true) >>
    modify (set_sound_fonts_path sound_fonts_path).

(** ** Piano._start_audio_output *)
Definition _start_audio_output : M unit :=
  let* driver := get _current_audio_driver in
  if negb (bool_decide (driver ∈ VALID_AUDIO_DRIVERS)) then raise ValueError
  else
    let* active := get _audio_driver_is_active in
    if negb active then
      call (StartAudioOutput driver) >>
      call ProgramReset >>
      modify (set_audio_driver_is_active true)
    else ret tt.

(** ** Piano._stop_audio_output *)
Definition _stop_audio_output : M unit :=
  let* active := get _audio_driver_is_active in
  if active then
    call DeleteAudioDriver >>
    call ProgramReset >>
    modify (set_audio_driver_is_active false)
  else ret tt.

(** ** Piano.load_instrument

    [set_instrument(channel, instr, bank)] is the engine's. *)
Definition load_instrument (instrument : instrument_value) : M unit :=
  let* path := get _sound_fonts_path in
  if path_eqb path DEFAULT_SOUND_FONTS then
    if negb (in_default_instruments instrument) then raise ValueError
    else
      match default_instrument_number instrument with
      | Some number =>
          call (SetInstrument 1 (InstrInt number) 0) >>
          modify (set_instrument_attr instrument)
      | None => raise KeyError
      end
  else
    call (SetInstrument 1 instrument 0) >>
    modify (set_instrument_attr instrument).

(** ** What [play] accepts: [Union[str, int, Note, NoteContainer, Bar, Track, PianoKey]] *)
Inductive music_container : Type :=
| MCStr (s : string)
| MCInt (i : Z)
| MCNote (n : Note)
| MCNoteContainer (nc : NoteContainer)
| MCBar (b : Bar)
| MCTrack (t : Track)
| MCPianoKey (k : PianoKey).

(** ** Piano._play_music_container: an [if]/[elif] chain with no [else] *)
Definition _play_music_container (mc : music_container) : M unit :=
  match mc with
  | MCStr s =>
      match Note_of_str s with
      | Some n => call (PlayNote n)
      | None => raise (Note_error s)
      end
  | MCInt i =>
      match keyboard_note i with
      | Some n => call (PlayNote n)
      | None => raise (keyboard_error i)
      end
  | MCNote n => call (PlayNote n)
  | MCNoteContainer nc => call (PlayNoteContainer nc)
  | MCBar b => call (PlayBar b)
  | MCTrack t => call (PlayTrack t)
  | MCPianoKey _ => ret tt
  end.

(** ** Piano._lint_music_container *)

(** The [if]/[elif]/[else] chain computing [distinct_notes_in_container]. *)
Definition distinct_notes_in_container (mc : music_container) : M (gset string) :=
  match mc with
  | MCStr s =>
      match Note_of_str s with
      | Some note => ret {[ note_to_string note ]}
      | None => raise (Note_error s)
      end
  | MCNote n => ret {[ note_to_string n ]}
  | MCNoteContainer nc => ret (list_to_set (note_container_to_note_string_list nc))
  | MCBar b => ret (list_to_set (bar_to_note_string_list b))
  | MCTrack t => ret (list_to_set (track_to_note_string_list t))
  | MCInt _ | MCPianoKey _ => raise (Exception "Unexpected Error")
  end.

Definition _lint_music_container (mc : music_container) : M unit :=
  let* notes := distinct_notes_in_container mc in
  let diff := notes ∖ distinct_key_names in
  if bool_decide (0 < size diff)%nat then raise ValueError
  else ret tt.

(** ** Piano.play

    [record_seconds] is declared [int], so [int(record_seconds * 44100)]
    is the product. *)
Definition play (mc : music_container) (recording_file : option string)
    (record_seconds : Z) (stop_recording : bool) : M unit :=
  _lint_music_container mc >>
  match recording_file with
  | None =>
      _start_audio_output >>
      _play_music_container mc
  | Some file =>
      _stop_audio_output >>
      call (StartRecording file) >>
      _play_music_container mc >>
      call (GetSamples (record_seconds * 44100)) >>
      call (WavWriteframes (record_seconds * 44100)) >>
      if stop_recording then
        call WavClose >>
        _start_audio_output
      else ret tt
  end.

(** The defaults of [play]'s keyword arguments. *)
Definition default_recording_file : option string := None.
Definition default_stop_recording : bool := true.

(** ** Piano.stop *)
Definition stop (mc : music_container) : M unit :=
  match mc with
  | MCStr s =>
      match Note_of_str s with
      | Some note => call (StopNote note)
      | None => raise ValueError
      end
  | MCNoteContainer nc => call (StopNoteContainer nc)
  | _ => call StopEverything
  end.

(** ** Piano.__init__

    The attributes are created in the order of the source; [blank] holds
    placeholders for those not yet assigned, none of which is read
    before its assignment. *)
Definition blank : Piano :=
  mkPiano (PyStr "") false None false (InstrInt 0) 0 [].

Definition __init__ (sound_fonts_path : path_value)
    (audio_driver : option string) (instrument : instrument_value) : M unit :=
  modify (set_sound_fonts_path (Path sound_fonts_path)) >>
  modify (set_sound_fonts_loaded false) >>
  (let* path := get _sound_fonts_path in load_sound_fonts path) >>
  modify (set_current_audio_driver audio_driver) >>
  modify (set_audio_driver_is_active false) >>
  modify (set_instrument_attr instrument) >>
  let* i := get Piano.instrument in load_instrument i.

(** [Piano(sound_fonts_path, audio_driver, instrument)] *)
Definition new_Piano (sound_fonts_path : path_value)
    (audio_driver : option string) (instrument : instrument_value) : outcome unit :=
  __init__ sound_fonts_path audio_driver instrument blank.

(** ** Calling the object

    The methods of the class as one type, so that the states an object can
    be in are those left by a constructor call that returned, followed by
    any number of method calls, each left where it ended (normally or with
    an exception the caller caught). *)
Inductive method : Type :=
| Call_unload_sound_fonts
| Call_load_sound_fonts (sound_fonts_path : path_value)
| Call_start_audio_output
| Call_stop_audio_output
| Call_load_instrument (instrument : instrument_value)
| Call_play (mc : music_container) (recording_file : option string)
    (record_seconds : Z) (stop_recording : bool)
| Call_stop (mc : music_container).

Definition invoke (m : method) : M unit :=
  match m with
  | Call_unload_sound_fonts => _unload_sound_fonts
  | Call_load_sound_fonts path => load_sound_fonts path
  | Call_start_audio_output => _start_audio_output
  | Call_stop_audio_output => _stop_audio_output
  | Call_load_instrument i => load_instrument i
  | Call_play mc file secs stop_rec => play mc file secs stop_rec
  | Call_stop mc => stop mc
  end.

Inductive reachable : Piano -> Prop :=
| reachable_new sound_fonts_path audio_driver instrument p :
    new_Piano sound_fonts_path audio_driver instrument = Return tt p ->
    reachable p
| reachable_invoke m p :
    reachable p -> reachable (final (invoke m p)).

(** ** Reading the engine log *)

(** Whether the audio driver created by the last [StartAudioOutput] is
    still there: the most recent of the start and delete calls decides. *)
Fixpoint driver_started (log : list event) : bool :=
  match log with
  | [] => false
  | StartAudioOutput _ :: _ => true
  | DeleteAudioDriver :: _ => false
  | _ :: log' => driver_started log'
  end.

(** Every [DeleteAudioDriver] was issued while a driver was there. *)
Fixpoint deletes_guarded (log : list event) : bool :=
  match log with
  | [] => true
  | DeleteAudioDriver :: log' => driver_started log' && deletes_guarded log'
  | _ :: log' => deletes_guarded log'
  end.

Definition is_start (e : event) : bool :=
  match e with StartAudioOutput _ => true | _ => false end.

Definition is_delete (e : event) : bool :=
  match e with DeleteAudioDriver => true | _ => false end.

(** The fonts the synthesizer holds after the logged calls. *)
Fixpoint fonts_held (log : list event) : list Z :=
  match log with
  | [] => []
  | Sfload _ id :: log' =>
      if id =? -1 then fonts_held log' else id :: fonts_held log'
  | Sfunload id :: log' =>
      filter (fun x => x ≠ id) (fonts_held log')
  | _ :: log' => fonts_held log'
  end.

(** ** Notions used by the statements *)

(** The engine play method matching a container's class, with its
    argument. *)
Definition engine_play (mc : music_container) : option event :=
  match mc with
  | MCStr s => PlayNote <$> Note_of_str s
  | MCInt i => PlayNote <$> keyboard_note i
  | MCNote n => Some (PlayNote n)
  | MCNoteContainer nc => Some (PlayNoteContainer nc)
  | MCBar b => Some (PlayBar b)
  | MCTrack t => Some (PlayTrack t)
  | MCPianoKey _ => None
  end.

(** The note strings of a container of one of the five linted classes. *)
Definition note_strings (mc : music_container) : option (list string) :=
  match mc with
  | MCStr s => (fun n => [note_to_string n]) <$> Note_of_str s
  | MCNote n => Some [note_to_string n]
  | MCNoteContainer nc => Some (note_container_to_note_string_list nc)
  | MCBar b => Some (bar_to_note_string_list b)
  | MCTrack t => Some (track_to_note_string_list t)
  | MCInt _ | MCPianoKey _ => None
  end.

(** The containers validation is written for: a string that [Note]
    accepts, a [Note], a [NoteContainer], a [Bar] or a [Track]. *)
Definition linted_class (mc : music_container) : Prop :=
  match mc with
  | MCStr s => is_Some (Note_of_str s)
  | MCNote _ | MCNoteContainer _ | MCBar _ | MCTrack _ => True
  | MCInt _ | MCPianoKey _ => False
  end.

(** A container with a note whose string form is not a key name. *)
Definition has_note_off_keyboard (mc : music_container) : Prop :=
  exists l s, note_strings mc = Some l /\ s ∈ l /\ s ∉ distinct_key_names.

(** All the notes of the container are key names. *)
Definition on_keyboard (mc : music_container) : Prop :=
  exists l, note_strings mc = Some l /\ forall s, s ∈ l -> s ∈ distinct_key_names.

(** The log once [load_sound_fonts] has unloaded what the flag says is
    loaded. *)
Definition log_after_unload (p : Piano) : list event :=
  if _sound_fonts_loaded p then Sfunload (sfid p) :: engine_log p
  else engine_log p.

(** The object once a recording call has stopped audio output, opened
    [file], played [e], and requested and written the samples. *)
Definition recorded (file : string) (e : event) (record_seconds : Z) (p : Piano) : Piano :=
  log_event (WavWriteframes (record_seconds * 44100))
    (log_event (GetSamples (record_seconds * 44100))
       (log_event e
          (log_event (StartRecording file) (final (_stop_audio_output p))))).

(** A driver was started and no delete call came after that start. *)
Definition started_since_last_stop (log : list event) : Prop :=
  exists recent d older,
    log = recent ++ StartAudioOutput d :: older /\ DeleteAudioDriver ∉ recent.

(** No two delete calls without a start call between them. *)
Definition no_double_delete (log : list event) : Prop :=
  forall recent between older,
    log = recent ++ DeleteAudioDriver :: between ++ DeleteAudioDriver :: older ->
    exists d, StartAudioOutput d ∈ between.

(** The flag mirrors the engine, and every delete found a driver. *)
Definition audio_inv (p : Piano) : Prop :=
  _audio_driver_is_active p = driver_started (engine_log p)
  /\ deletes_guarded (engine_log p) = true.

Definition preserves {A} (m : M A) : Prop :=
  forall p, audio_inv p -> audio_inv (final (m p)).

End Piano.

Arguments Return {_ A} a p.
Arguments Raise {_ A} e p.

(** ** A concrete world

    Notes are their own string form ([C#-4]), a chord is a list of
    notes, a bar a list of chords, a track a list of bars; the keyboard
    runs from A-0 to C-8; the synthesizer can load the shipped font file
    and nothing else. *)
Module Sample.

Definition octave_names : list string :=
  ["C"; "C#"; "D"; "D#"; "E"; "F"; "F#"; "G"; "G#"; "A"; "A#"; "B"].

Definition octave (o : string) : list string :=
  (fun n => n +:+ "-" +:+ o) <$> octave_names.

Definition key_names : list string :=
  ["A-0"; "A#-0"; "B-0"]
  ++ octave "1" ++ octave "2" ++ octave "3" ++ octave "4"
  ++ octave "5" ++ octave "6" ++ octave "7" ++ ["C-8"].

Definition font_file : string := "/pyano/sound_fonts/FluidR3_GM.sf2".

#[export] Instance world : World := {|
  Note := string;
  NoteContainer := list string;
  Bar := list (list string);
  Track := list (list (list string));
  PianoKey := Z;
  default_sound_fonts_file := font_file;
  Path_of_str := fun s => s;
  Note_of_str := fun s => if bool_decide (s = "") then None else Some s;
  Note_error := fun _ => NoteFormatError;
  note_to_string := fun n => n;
  note_container_to_note_string_list := fun nc => nc;
  bar_to_note_string_list := fun b => concat b;
  track_to_note_string_list := fun t => concat (concat t);
  distinct_key_names := list_to_set key_names;
  keyboard_note := fun i => if bool_decide (0 <= i) then key_names !! Z.to_nat i else None;
  keyboard_error := fun _ => IndexError
|}.

#[export] Instance synth : Synth := {|
  sfload := fun _ sf2 => if bool_decide (sf2 = font_file) then 1 else -1
|}.

Definition c4 : music_container := MCNote "C-4".
Definition c9 : music_container := MCNote "C-9".
Definition c_major_bar : music_container := MCBar [["C-4"; "E-4"]; ["G-4"]].

(** [Piano()] *)
Definition piano : Piano :=
  final (new_Piano DEFAULT_SOUND_FONTS None (InstrStr "Acoustic Grand Piano")).

(** [Piano(audio_driver="winmm")] *)
Definition piano_winmm : Piano :=
  final (new_Piano DEFAULT_SOUND_FONTS (Some "winmm") (InstrStr "Acoustic Grand Piano")).

(** [Piano()] after [play("C-4")]: audio output is active. *)
Definition piano_playing : Piano :=
  final (play c4 None 4 true piano).

(** [Piano()] after a live call, a recording call that leaves the file
    open, and another live call. *)
Definition piano_after_session : Piano :=
  final (play c4 None 4 true
           (final (play c_major_bar (Some "out.wav") 4 false piano_playing))).

End Sample.


(** * Properties *)

Section PianoTheory.

Context `{S : Synth}.

Ltac run :=
  unfold bind, get, modify, call, ret, raise in *; simpl in *.

(** ** Audio output: the three cases of [_start_audio_output] *)

Lemma start_invalid_driver (p : Piano) :
  _current_audio_driver p ∉ VALID_AUDIO_DRIVERS ->
  _start_audio_output p = Raise ValueError p.
Proof.
  intros Hd. unfold _start_audio_output. run.
  rewrite bool_decide_eq_false_2 by assumption. reflexivity.
Qed.

Lemma start_already_active (p : Piano) :
  _current_audio_driver p ∈ VALID_AUDIO_DRIVERS ->
  _audio_driver_is_active p = true ->
  _start_audio_output p = Return tt p.
Proof.
  intros Hd Ha. unfold _start_audio_output. run.
  rewrite bool_decide_eq_true_2 by assumption. simpl.
  rewrite Ha. reflexivity.
Qed.

Lemma start_inactive (p : Piano) :
  _current_audio_driver p ∈ VALID_AUDIO_DRIVERS ->
  _audio_driver_is_active p = false ->
  _start_audio_output p =
    Return tt (set_audio_driver_is_active true
                 (log_event ProgramReset
                    (log_event (StartAudioOutput (_current_audio_driver p)) p))).
Proof.
  intros Hd Ha. unfold _start_audio_output. run.
  rewrite bool_decide_eq_true_2 by assumption. simpl.
  rewrite Ha. reflexivity.
Qed.

Lemma stop_inactive (p : Piano) :
  _audio_driver_is_active p = false ->
  _stop_audio_output p = Return tt p.
Proof.
  intros Ha. unfold _stop_audio_output. run. rewrite Ha. reflexivity.
Qed.

Lemma stop_active (p : Piano) :
  _audio_driver_is_active p = true ->
  _stop_audio_output p =
    Return tt (set_audio_driver_is_active false
                 (log_event ProgramReset (log_event DeleteAudioDriver p))).
Proof.
  intros Ha. unfold _stop_audio_output. run. rewrite Ha. reflexivity.
Qed.

(** C8: [_start_audio_output] raises [ValueError] exactly when the
    configured driver is not one of the ten values of
    [VALID_AUDIO_DRIVERS], and then it has made no engine call: the object,
    log included, is as before. *)
Theorem start_audio_output_driver_guard (p : Piano) :
  (raised (_start_audio_output p) = Some ValueError
   <-> _current_audio_driver p ∉
         [ None; Some "alsa"; Some "oss"; Some "jack"; Some "portaudio";
           Some "sndmgr"; Some "coreaudio"; Some "Direct Sound";
           Some "dsound"; Some "pulseaudio" ])
  /\ (raised (_start_audio_output p) = Some ValueError ->
      _start_audio_output p = Raise ValueError p).
Proof.
  change [ None; Some "alsa"; Some "oss"; Some "jack"; Some "portaudio";
           Some "sndmgr"; Some "coreaudio"; Some "Direct Sound";
           Some "dsound"; Some "pulseaudio" ] with VALID_AUDIO_DRIVERS.
  destruct (decide (_current_audio_driver p ∈ VALID_AUDIO_DRIVERS)) as [Hd|Hd].
  - destruct (_audio_driver_is_active p) eqn:Ha.
    + rewrite (start_already_active p Hd Ha). simpl.
      split; [split; [discriminate | tauto] | discriminate].
    + rewrite (start_inactive p Hd Ha). simpl.
      split; [split; [discriminate | tauto] | discriminate].
  - rewrite (start_invalid_driver p Hd). simpl. tauto.
Qed.

(** ** Reading the log *)

Lemma driver_started_spec (log : list event) :
  driver_started log = true <-> started_since_last_stop log.
Proof.
  unfold started_since_last_stop. induction log as [|e log IH]; simpl.
  - split; [discriminate |].
    intros (recent & d & older & Heq & _). by destruct recent.
  - split.
    + intros Hs.
      assert (is_start e = true \/
              (is_start e = false /\ is_delete e = false /\ driver_started log = true))
        as [He | (He1 & He2 & Hl)] by (destruct e; simpl; auto; discriminate).
      * destruct e; try discriminate. exists [], driver, log.
        split; [reflexivity | apply not_elem_of_nil].
      * apply IH in Hl as (recent & d & older & -> & Hn).
        exists (e :: recent), d, older. split; [reflexivity |].
        intros [Hd|Hin]%elem_of_cons; [subst e; discriminate | tauto].
    + intros (recent & d & older & Heq & Hn).
      destruct recent as [|e' recent]; simpl in Heq; injection Heq as -> ->.
      * reflexivity.
      * assert (driver_started (recent ++ StartAudioOutput d :: older) = true) as Hl.
        { apply IH. exists recent, d, older. split; [reflexivity |].
          intros Hin. apply Hn. by right. }
        destruct e'; simpl; auto.
        exfalso. apply Hn. by left.
Qed.

Lemma deletes_guarded_app (l1 l2 : list event) :
  deletes_guarded (l1 ++ l2) = true -> deletes_guarded l2 = true.
Proof.
  induction l1 as [|e l1 IH]; simpl; [tauto |].
  destruct e; auto. intros [_ Hg]%andb_true_iff. auto.
Qed.

Lemma driver_started_no_start (l1 l2 : list event) :
  (forall d, StartAudioOutput d ∉ l1) ->
  driver_started (l1 ++ DeleteAudioDriver :: l2) = false.
Proof.
  induction l1 as [|e l1 IH]; simpl; intros Hn; [reflexivity |].
  assert (forall d, StartAudioOutput d ∉ l1) as Hn'.
  { intros d Hin. apply (Hn d). by right. }
  destruct e; auto. exfalso. apply (Hn driver). by left.
Qed.

Lemma deletes_guarded_no_double (log : list event) :
  deletes_guarded log = true -> no_double_delete log.
Proof.
  intros Hg recent between older ->.
  apply deletes_guarded_app in Hg. simpl in Hg.
  apply andb_true_iff in Hg as [Hs _].
  destruct (decide (Exists (fun e => is_start e = true) between)) as [Hex|Hex].
  - apply Exists_exists in Hex as (e & Hin & He).
    destruct e; try discriminate. eauto.
  - rewrite driver_started_no_start in Hs; [discriminate |].
    intros d Hin. apply Hex, Exists_exists. by exists (StartAudioOutput d).
Qed.

(** ** The flag mirrors the engine in every state an object can be in *)

Lemma preserves_ret {A} (a : A) : preserves (ret a).
Proof. intros p Hp. exact Hp. Qed.

Lemma preserves_raise {A} (e : exn) : preserves (@raise _ A e).
Proof. intros p Hp. exact Hp. Qed.

Lemma preserves_get {A} (f : Piano -> A) : preserves (get f).
Proof. intros p Hp. exact Hp. Qed.

Lemma preserves_bind {A B} (m : M A) (k : A -> M B) :
  preserves m -> (forall a, preserves (k a)) -> preserves (bind m k).
Proof.
  intros Hm Hk p Hp. unfold bind. specialize (Hm p Hp).
  destruct (m p) as [a p'|e p']; simpl in *; [by apply Hk | done].
Qed.

Lemma preserves_call (e : event) :
  is_start e = false -> is_delete e = false -> preserves (call e).
Proof.
  intros Hs Hd p [Hf Hg]. unfold audio_inv. simpl.
  destruct e; simpl in *; try discriminate; auto.
Qed.

Lemma preserves_modify (f : Piano -> Piano) :
  (forall p, _audio_driver_is_active (f p) = _audio_driver_is_active p
             /\ engine_log (f p) = engine_log p) ->
  preserves (modify f).
Proof.
  intros Hf p [Ha Hg]. unfold audio_inv. simpl.
  destruct (Hf p) as [-> ->]. auto.
Qed.

Lemma preserves_start : preserves _start_audio_output.
Proof.
  intros p [Ha Hg].
  destruct (decide (_current_audio_driver p ∈ VALID_AUDIO_DRIVERS)) as [Hd|Hd].
  - destruct (_audio_driver_is_active p) eqn:Hact.
    + rewrite start_already_active by done. split; simpl; congruence.
    + rewrite start_inactive by done. split; simpl; congruence.
  - rewrite start_invalid_driver by done. split; simpl; congruence.
Qed.

Lemma preserves_stop : preserves _stop_audio_output.
Proof.
  intros p [Ha Hg]. destruct (_audio_driver_is_active p) eqn:Hact.
  - rewrite stop_active by done. split; simpl; [done |].
    by rewrite <- Ha, Hg.
  - rewrite stop_inactive by done. split; simpl; congruence.
Qed.

Ltac preserve :=
  repeat first
    [ apply preserves_start
    | apply preserves_stop
    | apply preserves_ret
    | apply preserves_raise
    | apply preserves_get
    | apply preserves_call; reflexivity
    | apply preserves_modify; intros; split; reflexivity
    | apply preserves_bind; [| intros]
    | match goal with
      | |- preserves (if ?b then _ else _) => destruct b
      | |- preserves (match ?x with _ => _ end) => destruct x
      end ].

Lemma preserves_invoke (m : method) : preserves (invoke m).
Proof.
  destruct m; simpl;
    unfold _unload_sound_fonts, load_sound_fonts, _unload_sound_fonts,
      load_sound_font, load_instrument, play, stop, _lint_music_container,
      distinct_notes_in_container, _play_music_container;
    preserve.
Qed.

(** What a constructor call that returns leaves behind. *)
Lemma new_Piano_returns sound_fonts_path audio_driver instr (p : Piano) :
  new_Piano sound_fonts_path audio_driver instr = Return tt p ->
  _sound_fonts_loaded p = true
  /\ _audio_driver_is_active p = false
  /\ _current_audio_driver p = audio_driver
  /\ Forall (fun e => is_start e = false /\ is_delete e = false) (engine_log p).
Proof.
  unfold new_Piano, __init__, load_sound_fonts, load_sound_font, load_instrument.
  run.
  destruct (sfload [] _ =? -1); simpl; [discriminate |].
  destruct (path_eqb _ _); simpl.
  - destruct (in_default_instruments instr); simpl; [| discriminate].
    destruct (default_instrument_number instr); simpl; [| discriminate].
    intros [= <-]. simpl. repeat split; repeat constructor.
  - intros [= <-]. simpl. repeat split; repeat constructor.
Qed.

Lemma driver_started_quiet (log : list event) :
  Forall (fun e => is_start e = false /\ is_delete e = false) log ->
  driver_started log = false /\ deletes_guarded log = true.
Proof.
  induction 1 as [|e log [Hs Hd] _ [IH1 IH2]]; [done |].
  destruct e; simpl in *; try discriminate; auto.
Qed.

Lemma reachable_audio_inv (p : Piano) : reachable p -> audio_inv p.
Proof.
  induction 1 as [sfp drv ins p Hnew | m p _ IH].
  - apply new_Piano_returns in Hnew as (_ & Ha & _ & Hq).
    apply driver_started_quiet in Hq as [Hs Hg].
    split; [congruence | done].
  - by apply preserves_invoke.
Qed.

(** ** Validation *)

Lemma distinct_notes_returns (mc : music_container) (l : list string) (p : Piano) :
  note_strings mc = Some l ->
  exists notes : gset string,
    distinct_notes_in_container mc p = Return notes p
    /\ forall s, s ∈ notes <-> s ∈ l.
Proof.
  destruct mc; simpl; try discriminate.
  - destruct (Note_of_str s) as [n|]; simpl; [| discriminate].
    intros [= <-]. eexists. split; [reflexivity |]. intros s'.
    by rewrite elem_of_singleton, list_elem_of_singleton.
  - intros [= <-]. eexists. split; [reflexivity |]. intros s'.
    by rewrite elem_of_singleton, list_elem_of_singleton.
  - intros [= <-]. eexists. split; [reflexivity |]. intros s'.
    apply elem_of_list_to_set.
  - intros [= <-]. eexists. split; [reflexivity |]. intros s'.
    apply elem_of_list_to_set.
  - intros [= <-]. eexists. split; [reflexivity |]. intros s'.
    apply elem_of_list_to_set.
Qed.

Lemma distinct_notes_raises (mc : music_container) (p : Piano) :
  note_strings mc = None ->
  exists e, distinct_notes_in_container mc p = Raise e p.
Proof.
  destruct mc; simpl; try discriminate.
  - destruct (Note_of_str s); simpl; [discriminate |].
    intros _. exists (Note_error s). reflexivity.
  - intros _. exists (Exception "Unexpected Error"). reflexivity.
  - intros _. exists (Exception "Unexpected Error"). reflexivity.
Qed.

Lemma off_keyboard_not_on (mc : music_container) :
  has_note_off_keyboard mc -> on_keyboard mc -> False.
Proof.
  intros (l & s & Hl & Hin & Hout) (l' & Hl' & Hall).
  rewrite Hl in Hl'. injection Hl' as <-. auto.
Qed.

Lemma linted_class_note_strings (mc : music_container) :
  linted_class mc -> note_strings mc <> None.
Proof.
  destruct mc; simpl; try done.
  intros [n Hn]. by rewrite Hn.
Qed.

(** The three ways [_lint_music_container] ends; it never touches the
    object. *)
Lemma lint_cases (mc : music_container) (p : Piano) :
  (_lint_music_container mc p = Raise ValueError p /\ has_note_off_keyboard mc)
  \/ (_lint_music_container mc p = Return tt p /\ on_keyboard mc)
  \/ (exists e, _lint_music_container mc p = Raise e p
                /\ note_strings mc = None).
Proof.
  unfold _lint_music_container, bind.
  destruct (note_strings mc) as [l|] eqn:Hl.
  - destruct (distinct_notes_returns mc l p Hl) as (notes & -> & Hnotes).
    case_bool_decide as Hsize.
    + left. split; [reflexivity |].
      apply size_pos_elem_of in Hsize as [s Hs].
      apply elem_of_difference in Hs as [Hs1 Hs2].
      exists l, s. rewrite <- Hnotes. auto.
    + right; left. split; [reflexivity |].
      exists l. split; [exact Hl |]. intros s Hs.
      destruct (decide (s ∈ distinct_key_names)) as [|Hout]; [done |].
      exfalso. apply Hsize.
      assert (s ∈ notes ∖ distinct_key_names) as Hd
        by (apply elem_of_difference; split; [by apply Hnotes | done]).
      destruct (size (notes ∖ distinct_key_names)) eqn:Hz; [| lia].
      apply size_empty_inv in Hz. rewrite Hz in Hd.
      by apply not_elem_of_empty in Hd.
  - right; right.
    destruct (distinct_notes_raises mc p Hl) as (e & ->). eauto.
Qed.

Lemma lint_final (mc : music_container) (p : Piano) :
  final (_lint_music_container mc p) = p.
Proof.
  destruct (lint_cases mc p) as [[-> _] | [[-> _] | (e & -> & _)]]; reflexivity.
Qed.

(** ** Dispatch *)

Lemma play_music_container_dispatch (mc : music_container) (e : event) (p : Piano) :
  engine_play mc = Some e ->
  _play_music_container mc p = Return tt (log_event e p).
Proof.
  destruct mc; simpl; try (intros [= <-]; reflexivity).
  - destruct (Note_of_str s); simpl; [intros [= <-]; reflexivity | discriminate].
  - destruct (keyboard_note i); simpl; [intros [= <-]; reflexivity | discriminate].
Qed.

Lemma on_keyboard_engine_play (mc : music_container) :
  on_keyboard mc -> exists e, engine_play mc = Some e.
Proof.
  intros (l & Hl & _). destruct mc; simpl in *; try discriminate; eauto.
  destruct (Note_of_str s); simpl in *; [eauto | discriminate].
Qed.

(** ** [play], unfolded once validation has passed *)

Lemma play_live (mc : music_container) (e : event) secs stop_rec (p : Piano) :
  on_keyboard mc -> engine_play mc = Some e ->
  play mc None secs stop_rec p =
    match _start_audio_output p with
    | Return _ p' => Return tt (log_event e p')
    | Raise x p' => Raise x p'
    end.
Proof.
  intros Hon He. unfold play, bind at 1.
  destruct (lint_cases mc p) as [[_ Hoff] | [[-> _] | (x & _ & Hn)]].
  - destruct (off_keyboard_not_on mc Hoff Hon).
  - unfold bind. destruct (_start_audio_output p); [| reflexivity].
    by apply play_music_container_dispatch.
  - destruct Hon as (l & Hl & _). congruence.
Qed.

Lemma play_recording (mc : music_container) (e : event) file secs stop_rec (p : Piano) :
  on_keyboard mc -> engine_play mc = Some e ->
  play mc (Some file) secs stop_rec p =
    if stop_rec
    then _start_audio_output (log_event WavClose (recorded file e secs p))
    else Return tt (recorded file e secs p).
Proof.
  intros Hon He. unfold play, bind at 1.
  destruct (lint_cases mc p) as [[_ Hoff] | [[-> _] | (x & _ & Hn)]].
  - destruct (off_keyboard_not_on mc Hoff Hon).
  - unfold recorded, bind at 1.
    assert (exists q, _stop_audio_output p = Return tt q) as [q Hq].
    { destruct (_audio_driver_is_active p) eqn:Ha.
      - rewrite stop_active by done. eauto.
      - rewrite stop_inactive by done. eauto. }
    rewrite Hq. run.
    rewrite (play_music_container_dispatch mc e) by done.
    destruct stop_rec; reflexivity.
  - destruct Hon as (l & Hl & _). congruence.
Qed.

(** ** Sound fonts *)

Lemma load_sound_fonts_unfold (path : path_value) (p : Piano) :
  let id := sfload (log_after_unload p) (path_str path) in
  let log := Sfload (path_str path) id :: log_after_unload p in
  load_sound_fonts path p =
    if id =? -1
    then Raise (Exception "Could not load sound fonts")
           (mkPiano (_sound_fonts_path p) (_sound_fonts_loaded p)
              (_current_audio_driver p) (_audio_driver_is_active p)
              (instrument p) id log)
    else Return tt
           (mkPiano path true
              (_current_audio_driver p) (_audio_driver_is_active p)
              (instrument p) id log).
Proof.
  unfold load_sound_fonts, _unload_sound_fonts, load_sound_font, log_after_unload.
  run. destruct p as [pth [] drv act ins id log]; simpl.
  - destruct (sfload _ _ =? -1); reflexivity.
  - destruct (sfload _ _ =? -1); reflexivity.
Qed.

(** C6: [load_sound_fonts] raises exactly when the engine's [sfload]
    answers [-1] for the path; when it does not, the call returns, the font
    the flag said was loaded has been unloaded first ([sfunload] of the old
    id precedes the [sfload]), the flag is true and the path is the new
    one. *)
Theorem load_sound_fonts_raises_iff_engine_fails (path : path_value) (p : Piano) :
  let id := sfload (log_after_unload p) (path_str path) in
  ((exists e, raised (load_sound_fonts path p) = Some e) <-> id = -1)
  /\ (id <> -1 ->
      exists p', load_sound_fonts path p = Return tt p'
        /\ _sound_fonts_loaded p' = true
        /\ _sound_fonts_path p' = path
        /\ sfid p' = id
        /\ engine_log p' =
             Sfload (path_str path) id ::
               (if _sound_fonts_loaded p then [Sfunload (sfid p)] else [])
               ++ engine_log p).
Proof.
  intros id. rewrite load_sound_fonts_unfold. fold id.
  destruct (Z.eqb_spec id (-1)) as [Heq|Hne]; simpl.
  - split; [| done]. split; [done | eauto].
  - split.
    + split; [intros [e He]; discriminate | done].
    + intros _. eexists. split; [reflexivity |]. simpl.
      repeat split. unfold log_after_unload.
      by destruct (_sound_fonts_loaded p).
Qed.

Lemma fonts_held_after_unload (id : Z) (log : list event) :
  id ∉ fonts_held (Sfunload id :: log).
Proof.
  simpl. intros [Hne _]%list_elem_of_filter. by apply Hne.
Qed.

(** C4, as the code has it: when a font is loaded and the engine cannot
    load the new path, [load_sound_fonts] raises and the stored path is
    unchanged, but the font that was loaded has been unloaded before the
    attempt: the engine no longer holds it and [sfid] is [-1]. *)
Theorem load_sound_fonts_failure_unloads (path : path_value) (p : Piano) :
  _sound_fonts_loaded p = true ->
  sfload (Sfunload (sfid p) :: engine_log p) (path_str path) = -1 ->
  exists p',
    load_sound_fonts path p = Raise (Exception "Could not load sound fonts") p'
    /\ _sound_fonts_path p' = _sound_fonts_path p
    /\ engine_log p' =
         (Sfload (path_str path) (-1) :: Sfunload (sfid p) :: engine_log p)
    /\ (sfid p ∉ fonts_held (engine_log p'))
    /\ sfid p' = -1.
Proof.
  intros Hl Hfail. rewrite load_sound_fonts_unfold.
  unfold log_after_unload. rewrite Hl, Hfail. simpl.
  eexists. split; [reflexivity |]. simpl. repeat split.
  apply (fonts_held_after_unload (sfid p) (engine_log p)).
Qed.

(** ** Instruments *)

Lemma dict_get_is_Some (d : list (string * Z)) (k : string) :
  k ∈ d.*1 -> exists v, dict_get d k = Some v.
Proof.
  induction d as [|[k' v] d IH]; simpl.
  - by intros ?%elem_of_nil.
  - intros [->|Hin]%elem_of_cons.
    + rewrite bool_decide_eq_true_2 by done. eauto.
    + case_bool_decide; eauto.
Qed.

Lemma load_instrument_unfold (i : instrument_value) (p : Piano) :
  load_instrument i p =
    if path_eqb (_sound_fonts_path p) DEFAULT_SOUND_FONTS then
      if in_default_instruments i then
        match default_instrument_number i with
        | Some number =>
            Return tt (set_instrument_attr i
                         (log_event (SetInstrument 1 (InstrInt number) 0) p))
        | None => Raise KeyError p
        end
      else Raise ValueError p
    else Return tt (set_instrument_attr i (log_event (SetInstrument 1 i 0) p)).
Proof.
  unfold load_instrument, bind, get, modify, call, raise.
  destruct (path_eqb _ _); [| reflexivity].
  destruct (in_default_instruments i); [| reflexivity].
  destruct (default_instrument_number i); reflexivity.
Qed.

(** C7: with the default sound-font path current, [load_instrument]
    raises [ValueError] exactly when the argument is not one of the eight
    default names, and for one of them calls the engine's [set_instrument]
    with channel 1, the name's number and bank 0; with another path
    current there is no guard and the argument goes to the engine as it
    is.  Both ways the [instrument] attribute becomes the argument. *)
Theorem load_instrument_guarded_delegation (i : instrument_value) (p : Piano) :
  (path_eqb (_sound_fonts_path p) DEFAULT_SOUND_FONTS = true ->
     (raised (load_instrument i p) = Some ValueError <->
        ~ exists name, i = InstrStr name /\
            name ∈ [ "Acoustic Grand Piano"; "Bright Acoustic Piano";
                     "Electric Grand Piano"; "Honky-tonk Piano";
                     "Electric Piano 1"; "Electric Piano 2";
                     "Harpsichord"; "Clavi" ])
     /\ (raised (load_instrument i p) = Some ValueError ->
            load_instrument i p = Raise ValueError p)
     /\ (raised (load_instrument i p) <> Some ValueError ->
            exists name number,
              i = InstrStr name
              /\ dict_get DEFAULT_INSTRUMENTS name = Some number
              /\ load_instrument i p =
                   Return tt (set_instrument_attr i
                                (log_event (SetInstrument 1 (InstrInt number) 0) p))))
  /\ (path_eqb (_sound_fonts_path p) DEFAULT_SOUND_FONTS = false ->
        load_instrument i p =
          Return tt (set_instrument_attr i (log_event (SetInstrument 1 i 0) p))).
Proof.
  change [ "Acoustic Grand Piano"; "Bright Acoustic Piano";
           "Electric Grand Piano"; "Honky-tonk Piano";
           "Electric Piano 1"; "Electric Piano 2";
           "Harpsichord"; "Clavi" ] with (DEFAULT_INSTRUMENTS.*1).
  rewrite load_instrument_unfold. split; intros ->; [| reflexivity].
  destruct i as [name|n]; unfold in_default_instruments, default_instrument_number.
  - case_bool_decide as Hin.
    + destruct (dict_get_is_Some DEFAULT_INSTRUMENTS name Hin) as [number Hnum].
      rewrite Hnum. unfold raised.
      split; [| split]; [| discriminate |].
      * split; [discriminate |]. intros Hno. exfalso. apply Hno. eauto.
      * intros _. exists name, number. auto.
    + split; [| split]; [| done | done].
      split; [| done]. intros _ (name' & [= <-] & Hin'). done.
  - split; [| split]; [| done | done].
    split; [| done]. intros _ (name' & [=] & _).
Qed.

(** ** Mode switching *)

Lemma stop_final (p : Piano) :
  _audio_driver_is_active (final (_stop_audio_output p)) = false
  /\ _current_audio_driver (final (_stop_audio_output p)) = _current_audio_driver p
  /\ engine_log (final (_stop_audio_output p)) =
       (if _audio_driver_is_active p then [ProgramReset; DeleteAudioDriver] else [])
       ++ engine_log p.
Proof.
  destruct (_audio_driver_is_active p) eqn:Ha.
  - rewrite stop_active by done. done.
  - rewrite stop_inactive by done. done.
Qed.

Lemma recorded_facts (file : string) (e : event) (secs : Z) (p : Piano) :
  _audio_driver_is_active (recorded file e secs p) = false
  /\ _current_audio_driver (recorded file e secs p) = _current_audio_driver p
  /\ engine_log (recorded file e secs p) =
       [WavWriteframes (secs * 44100); GetSamples (secs * 44100); e;
        StartRecording file]
       ++ (if _audio_driver_is_active p then [ProgramReset; DeleteAudioDriver] else [])
       ++ engine_log p.
Proof.
  destruct (stop_final p) as (Ha & Hd & Hl).
  unfold recorded. simpl. rewrite Hl. done.
Qed.

(** C5: [_start_audio_output] with the flag already true makes no engine
    call and leaves the object as it is (it returns, or raises on a driver
    value that is not allowed, and the object is the same either way);
    [_stop_audio_output] with the flag already false returns with the
    object as it is; and in no state an object can be in does the log show
    two [delete_fluid_audio_driver] calls without a start between them. *)
Theorem audio_lifecycle_idempotent :
  (forall p : Piano,
      _audio_driver_is_active p = true ->
      _start_audio_output p =
        (if bool_decide (_current_audio_driver p ∈ VALID_AUDIO_DRIVERS)
         then Return tt p else Raise ValueError p)
      /\ final (_start_audio_output p) = p)
  /\ (forall p : Piano,
        _audio_driver_is_active p = false ->
        _stop_audio_output p = Return tt p)
  /\ (forall p : Piano,
        reachable p -> no_double_delete (engine_log p)).
Proof.
  split; [| split].
  - intros p Ha. case_bool_decide as Hd.
    + by rewrite start_already_active.
    + by rewrite start_invalid_driver.
  - apply stop_inactive.
  - intros p Hp. apply deletes_guarded_no_double.
    by destruct (reachable_audio_inv p Hp).
Qed.

Lemma Forall_no_start (log : list event) :
  Forall (fun e => is_start e = false /\ is_delete e = false) log ->
  forall d, StartAudioOutput d ∉ log.
Proof.
  intros Hq d Hin. rewrite Forall_forall in Hq.
  by destruct (Hq _ Hin).
Qed.

(** C9, as the code has it: when [Piano.__init__] returns, the
    sound-font flag is true, the audio flag is false and no start call
    has been made; audio output is started later, by the first [play] that
    reaches [_start_audio_output], which is one with [recording_file=None]
    or a recording one with [stop_recording] true; and in every state an
    object can be in, the audio flag is true only if the log holds a start
    call with no delete call after it. *)
Theorem init_flags_and_lazy_audio :
  (forall sound_fonts_path audio_driver instr (p : Piano),
      new_Piano sound_fonts_path audio_driver instr = Return tt p ->
      _sound_fonts_loaded p = true
      /\ _audio_driver_is_active p = false
      /\ forall d, StartAudioOutput d ∉ engine_log p)
  /\ (forall (p : Piano) mc recording_file secs stop_rec,
        _audio_driver_is_active p = false ->
        _current_audio_driver p ∈ VALID_AUDIO_DRIVERS ->
        on_keyboard mc ->
        (_audio_driver_is_active
           (final (play mc recording_file secs stop_rec p)) = true
         <-> recording_file = None \/ stop_rec = true))
  /\ (forall p : Piano,
        reachable p ->
        _audio_driver_is_active p = true ->
        started_since_last_stop (engine_log p)).
Proof.
  split; [| split].
  - intros sfp drv ins p Hnew.
    apply new_Piano_returns in Hnew as (Hl & Ha & _ & Hq).
    split; [done |]. split; [done |]. by apply Forall_no_start.
  - intros p mc file secs stop_rec Ha Hd Hon.
    destruct (on_keyboard_engine_play mc Hon) as [e He].
    destruct file as [file|].
    + rewrite (play_recording mc e) by done.
      destruct (recorded_facts file e secs p) as (Ha' & Hd' & _).
      destruct stop_rec.
      * rewrite start_inactive
          by (cbn [log_event _current_audio_driver _audio_driver_is_active];
              congruence).
        simpl. split; auto.
      * cbn [final]. rewrite Ha'. split; [discriminate |]. intros [|]; discriminate.
    + rewrite (play_live mc e) by done.
      rewrite start_inactive by done. simpl. split; auto.
  - intros p Hp Ha. apply driver_started_spec.
    destruct (reachable_audio_inv p Hp) as [Hf _]. congruence.
Qed.

(** ** [play] *)

(** C1, as the code has it: for a container of the classes validation is
    written for, [play] raises [ValueError] exactly when the container has
    a note that is not a key name, or when every note is one but the
    configured driver is not allowed and the call gets to
    [_start_audio_output] ([recording_file=None], or [stop_recording]
    true).  Validation comes first: with a note off the keyboard the call
    raises with the object, log included, as it was. *)
Theorem play_raises_ValueError_iff
    (mc : music_container) recording_file secs stop_rec (p : Piano) :
  linted_class mc ->
  (raised (play mc recording_file secs stop_rec p) = Some ValueError
   <-> has_note_off_keyboard mc
       \/ ((_current_audio_driver p ∉ VALID_AUDIO_DRIVERS)
           /\ (recording_file = None \/ stop_rec = true)))
  /\ (has_note_off_keyboard mc ->
      play mc recording_file secs stop_rec p = Raise ValueError p).
Proof.
  intros Hclass%linted_class_note_strings.
  destruct (lint_cases mc p) as [[Hlint Hoff] | [[Hlint Hon] | (x & _ & Hn)]];
    [| | done].
  - assert (play mc recording_file secs stop_rec p = Raise ValueError p) as ->
      by (unfold play, bind at 1; by rewrite Hlint).
    simpl. split; [split; auto | done].
  - split; [| intros Hoff; destruct (off_keyboard_not_on mc Hoff Hon)].
    destruct (on_keyboard_engine_play mc Hon) as [e He].
    destruct (decide (_current_audio_driver p ∈ VALID_AUDIO_DRIVERS)) as [Hd|Hd].
    + assert (raised (play mc recording_file secs stop_rec p) = None) as ->.
      { destruct recording_file as [file|].
        - rewrite (play_recording mc e) by done.
          destruct (recorded_facts file e secs p) as (Ha' & Hd' & _).
          destruct stop_rec; [| reflexivity].
          by rewrite start_inactive
            by (cbn [log_event _current_audio_driver _audio_driver_is_active];
                congruence).
        - rewrite (play_live mc e) by done.
          destruct (_audio_driver_is_active p) eqn:Ha.
          + by rewrite start_already_active.
          + by rewrite start_inactive. }
      split; [discriminate |].
      intros [Hoff | (Hd' & _)]; [| done].
      destruct (off_keyboard_not_on mc Hoff Hon).
    + destruct recording_file as [file|].
      * rewrite (play_recording mc e) by done.
        destruct (recorded_facts file e secs p) as (_ & Hd' & _).
        destruct stop_rec.
        -- rewrite start_invalid_driver
             by (cbn [log_event _current_audio_driver]; congruence).
           simpl. split; auto.
        -- simpl. split; [discriminate |].
           intros [Hoff | (_ & [|])]; try discriminate.
           destruct (off_keyboard_not_on mc Hoff Hon).
      * rewrite (play_live mc e) by done.
        rewrite start_invalid_driver by done. simpl. split; auto.
Qed.

(** C2, as the code has it: for a container whose notes are all key
    names and a configured driver that is allowed, [play] with
    [recording_file=None] returns with the audio flag true, having started
    audio output if it was not active and then called the engine play
    method; [play] with a file returns having stopped audio output if it
    was active, opened the file, played, requested and written the
    samples and, when [stop_recording] is true, closed the file and
    started audio output again, so that the flag is true; with
    [stop_recording] false the flag is false. *)
Theorem play_switches_modes (mc : music_container) secs stop_rec (p : Piano) :
  on_keyboard mc ->
  _current_audio_driver p ∈ VALID_AUDIO_DRIVERS ->
  exists e, engine_play mc = Some e
    /\ (exists p', play mc None secs stop_rec p = Return tt p'
          /\ _audio_driver_is_active p' = true
          /\ engine_log p' =
               [e]
               ++ (if _audio_driver_is_active p then []
                   else [ProgramReset; StartAudioOutput (_current_audio_driver p)])
               ++ engine_log p)
    /\ (forall file,
          exists p', play mc (Some file) secs stop_rec p = Return tt p'
            /\ _audio_driver_is_active p' = stop_rec
            /\ engine_log p' =
                 (if stop_rec
                  then [ProgramReset; StartAudioOutput (_current_audio_driver p);
                        WavClose]
                  else [])
                 ++ [WavWriteframes (secs * 44100); GetSamples (secs * 44100); e;
                     StartRecording file]
                 ++ (if _audio_driver_is_active p
                     then [ProgramReset; DeleteAudioDriver] else [])
                 ++ engine_log p).
Proof.
  intros Hon Hd. destruct (on_keyboard_engine_play mc Hon) as [e He].
  exists e. split; [done |]. split.
  - rewrite (play_live mc e) by done.
    destruct (_audio_driver_is_active p) eqn:Ha.
    + rewrite start_already_active by done. eexists. split; [reflexivity |].
      simpl. by rewrite Ha.
    + rewrite start_inactive by done. eexists. split; [reflexivity |]. done.
  - intros file. rewrite (play_recording mc e) by done.
    destruct (recorded_facts file e secs p) as (Ha' & Hd' & Hl').
    destruct stop_rec.
    + rewrite start_inactive
        by (cbn [log_event _current_audio_driver _audio_driver_is_active];
            congruence).
      eexists. split; [reflexivity |].
      cbn [set_audio_driver_is_active log_event _audio_driver_is_active
           engine_log _current_audio_driver].
      rewrite Hl', Hd'. done.
    + eexists. split; [reflexivity |]. by rewrite Ha', Hl'.
Qed.

(** C3, at the failing inputs: an integer key index and a [PianoKey] are
    turned away by validation with [Exception("Unexpected Error")], before
    any engine call, whatever the key. *)
Theorem play_rejects_int_and_PianoKey recording_file secs stop_rec (p : Piano) :
  (forall i : Z,
      play (MCInt i) recording_file secs stop_rec p =
        Raise (Exception "Unexpected Error") p)
  /\ (forall k : PianoKey,
        play (MCPianoKey k) recording_file secs stop_rec p =
          Raise (Exception "Unexpected Error") p).
Proof. split; reflexivity. Qed.

(** The dispatch itself knows integers: past validation, key [i] would be
    played as its note. *)
Lemma play_music_container_int (i : Z) (n : Note) (p : Piano) :
  keyboard_note i = Some n ->
  _play_music_container (MCInt i) p = Return tt (log_event (PlayNote n) p).
Proof. intros Hk. apply play_music_container_dispatch. simpl. by rewrite Hk. Qed.

End PianoTheory.

(** * The statements at work in the concrete world *)

Section Examples.

Import Sample.

Lemma sample_c4_on_keyboard : on_keyboard c4.
Proof.
  exists ["C-4"]. split; [reflexivity |].
  intros s ->%list_elem_of_singleton.
  refine (bool_decide_unpack _ _). vm_compute. exact I.
Defined.

Lemma sample_bar_on_keyboard : on_keyboard c_major_bar.
Proof.
  exists ["C-4"; "E-4"; "G-4"]. split; [reflexivity |].
  intros s Hs. apply elem_of_list_to_set.
  repeat (apply elem_of_cons in Hs as [->|Hs];
          [refine (bool_decide_unpack _ _); vm_compute; exact I |]).
  by apply elem_of_nil in Hs.
Defined.

Lemma sample_c9_off_keyboard : has_note_off_keyboard c9.
Proof.
  exists ["C-9"], "C-9". split; [reflexivity |].
  split; [by apply list_elem_of_singleton |].
  refine (proj1 (bool_decide_eq_false _) _). vm_compute. reflexivity.
Defined.

Lemma sample_piano_reachable : reachable piano.
Proof.
  apply (reachable_new DEFAULT_SOUND_FONTS None (InstrStr "Acoustic Grand Piano")).
  vm_compute. reflexivity.
Defined.

Lemma sample_driver_allowed : _current_audio_driver piano_playing ∈ VALID_AUDIO_DRIVERS.
Proof. refine (bool_decide_unpack _ _). vm_compute. exact I. Defined.

Lemma sample_winmm_not_allowed :
  _current_audio_driver piano_winmm ∉ VALID_AUDIO_DRIVERS.
Proof. refine (proj1 (bool_decide_eq_false _) _). vm_compute. reflexivity. Defined.

(** C1, the statement as written fails: on [Piano(audio_driver="winmm")],
    [play("C-4")] raises [ValueError] although C-4 is a key. *)
Lemma play_ValueError_without_bad_note :
  linted_class c4
  /\ raised (play c4 None 4 true piano_winmm) = Some ValueError
  /\ ~ has_note_off_keyboard c4.
Proof.
  split; [exact I |]. split; [vm_compute; reflexivity |].
  intros Hoff. exact (off_keyboard_not_on c4 Hoff sample_c4_on_keyboard).
Qed.

Lemma play_raises_ValueError_iff_witness :
  linted_class c9
  /\ has_note_off_keyboard c9
  /\ play c9 (Some "out.wav") 4 true piano_playing = Raise ValueError piano_playing.
Proof.
  split; [exact I |]. split; [exact sample_c9_off_keyboard |].
  exact (proj2 (play_raises_ValueError_iff c9 (Some "out.wav") 4 true piano_playing I)
               sample_c9_off_keyboard).
Defined.

(** C2, the statement as written fails: on [Piano(audio_driver="winmm")],
    [play("C-4")] with a valid container raises, plays nothing and leaves
    the audio flag false. *)
Lemma play_live_fails_on_winmm :
  on_keyboard c4
  /\ raised (play c4 None 4 true piano_winmm) = Some ValueError
  /\ _audio_driver_is_active (final (play c4 None 4 true piano_winmm)) = false
  /\ engine_log (final (play c4 None 4 true piano_winmm)) = engine_log piano_winmm.
Proof.
  split; [exact sample_c4_on_keyboard |].
  repeat split; vm_compute; reflexivity.
Qed.

Lemma play_switches_modes_witness :
  on_keyboard c_major_bar
  /\ _current_audio_driver piano_playing ∈ VALID_AUDIO_DRIVERS
  /\ exists p', play c_major_bar (Some "out.wav") 4 true piano_playing = Return tt p'
       /\ _audio_driver_is_active p' = true.
Proof.
  split; [exact sample_bar_on_keyboard |].
  split; [exact sample_driver_allowed |].
  destruct (play_switches_modes c_major_bar 4 true piano_playing
              sample_bar_on_keyboard sample_driver_allowed)
    as (e & _ & _ & Hrec).
  destruct (Hrec "out.wav") as (p' & Hp & Ha & _).
  exists p'. split; assumption.
Defined.

(** C4, the statement as written fails: [Piano()] holds font 1; after
    [load_sound_fonts("missing.sf2")] has raised, the engine holds no font
    and [sfid] is [-1]. *)
Lemma failed_load_loses_loaded_font :
  _sound_fonts_loaded piano = true
  /\ sfid piano = 1
  /\ fonts_held (engine_log piano) = [1]
  /\ raised (load_sound_fonts (PyStr "missing.sf2") piano)
       = Some (Exception "Could not load sound fonts")
  /\ sfid (final (load_sound_fonts (PyStr "missing.sf2") piano)) = -1
  /\ fonts_held (engine_log (final (load_sound_fonts (PyStr "missing.sf2") piano)))
       = [].
Proof. repeat split; vm_compute; reflexivity. Qed.

Lemma load_sound_fonts_failure_unloads_witness :
  _sound_fonts_loaded piano = true
  /\ sfload (Sfunload (sfid piano) :: engine_log piano) "missing.sf2" = -1
  /\ exists p',
       load_sound_fonts (PyStr "missing.sf2") piano
         = Raise (Exception "Could not load sound fonts") p'
       /\ (sfid piano ∉ fonts_held (engine_log p')).
Proof.
  assert (_sound_fonts_loaded piano = true) as Hl by (vm_compute; reflexivity).
  assert (sfload (Sfunload (sfid piano) :: engine_log piano) "missing.sf2" = -1)
    as Hfail by (vm_compute; reflexivity).
  split; [exact Hl |]. split; [exact Hfail |].
  destruct (load_sound_fonts_failure_unloads (PyStr "missing.sf2") piano Hl Hfail)
    as (p' & Hp & _ & _ & Hf & _).
  exists p'. split; assumption.
Defined.

Lemma audio_lifecycle_idempotent_witness :
  _audio_driver_is_active piano_playing = true
  /\ final (_start_audio_output piano_playing) = piano_playing
  /\ _audio_driver_is_active piano = false
  /\ _stop_audio_output piano = Return tt piano
  /\ reachable piano_after_session
  /\ no_double_delete (engine_log piano_after_session).
Proof.
  assert (reachable piano_after_session) as Hr.
  { exact (reachable_invoke (Call_play c4 None 4 true) _
             (reachable_invoke (Call_play c_major_bar (Some "out.wav") 4 false) _
                (reachable_invoke (Call_play c4 None 4 true) _
                   sample_piano_reachable))). }
  destruct audio_lifecycle_idempotent as (Hstart & Hstop & Hdel).
  split; [reflexivity |].
  split; [exact (proj2 (Hstart piano_playing eq_refl)) |].
  split; [reflexivity |].
  split; [exact (Hstop piano eq_refl) |].
  split; [exact Hr | exact (Hdel _ Hr)].
Defined.

Lemma load_sound_fonts_raises_iff_engine_fails_witness :
  sfload (log_after_unload piano) (path_str DEFAULT_SOUND_FONTS) <> -1
  /\ exists p', load_sound_fonts DEFAULT_SOUND_FONTS piano = Return tt p'
       /\ _sound_fonts_loaded p' = true
       /\ engine_log p' =
            Sfload font_file 1 :: Sfunload 1 :: engine_log piano.
Proof.
  assert (sfload (log_after_unload piano) (path_str DEFAULT_SOUND_FONTS) <> -1)
    as Hne by (vm_compute; discriminate).
  split; [exact Hne |].
  destruct (proj2 (load_sound_fonts_raises_iff_engine_fails DEFAULT_SOUND_FONTS piano) Hne)
    as (p' & Hp & Hl & _ & _ & Hlog).
  exists p'. split; [exact Hp |]. split; [exact Hl | exact Hlog].
Defined.

Lemma load_instrument_guarded_delegation_witness :
  path_eqb (_sound_fonts_path piano) DEFAULT_SOUND_FONTS = true
  /\ load_instrument (InstrInt 3) piano = Raise ValueError piano
  /\ exists number,
       dict_get DEFAULT_INSTRUMENTS "Harpsichord" = Some number
       /\ load_instrument (InstrStr "Harpsichord") piano =
            Return tt (set_instrument_attr (InstrStr "Harpsichord")
                         (log_event (SetInstrument 1 (InstrInt number) 0) piano)).
Proof.
  split; [reflexivity |]. split.
  - destruct (proj1 (load_instrument_guarded_delegation (InstrInt 3) piano) eq_refl)
      as (_ & Hraise & _).
    apply Hraise. reflexivity.
  - destruct (proj1 (load_instrument_guarded_delegation (InstrStr "Harpsichord") piano)
                eq_refl)
      as (_ & _ & Hok).
    destruct Hok as (name & number & Hname & Hnum & Hload); [discriminate |].
    injection Hname as <-. exists number. split; assumption.
Defined.

Lemma start_audio_output_driver_guard_witness :
  (_current_audio_driver piano_winmm ∉ VALID_AUDIO_DRIVERS)
  /\ _start_audio_output piano_winmm = Raise ValueError piano_winmm.
Proof.
  split; [exact sample_winmm_not_allowed |].
  destruct (start_audio_output_driver_guard piano_winmm) as [Hiff Hstate].
  apply Hstate, Hiff. exact sample_winmm_not_allowed.
Defined.

(** C9, the statement as written fails: the first call on [Piano()] is
    a recording one, [play("C-4", "out.wav")]; no call with
    [recording_file=None] was made, and audio output is started. *)
Lemma recording_call_starts_audio :
  new_Piano DEFAULT_SOUND_FONTS None (InstrStr "Acoustic Grand Piano")
    = Return tt piano
  /\ _audio_driver_is_active piano = false
  /\ _audio_driver_is_active (final (play c4 (Some "out.wav") 4 true piano)) = true
  /\ engine_log (final (play c4 (Some "out.wav") 4 true piano)) =
       [ProgramReset; StartAudioOutput None; WavClose; WavWriteframes 176400;
        GetSamples 176400; PlayNote "C-4"; StartRecording "out.wav"]
       ++ engine_log piano.
Proof. repeat split; vm_compute; reflexivity. Qed.

Lemma init_flags_and_lazy_audio_witness :
  reachable piano_playing
  /\ _audio_driver_is_active piano_playing = true
  /\ started_since_last_stop (engine_log piano_playing).
Proof.
  assert (reachable piano_playing) as Hr
    by exact (reachable_invoke (Call_play c4 None 4 true) _ sample_piano_reachable).
  split; [exact Hr |]. split; [reflexivity |].
  exact (proj2 (proj2 init_flags_and_lazy_audio) piano_playing Hr eq_refl).
Defined.

End Examples.

(** * What the methods keep *)

Section PianoFrames.

Context `{S : Synth}.

(** [m] keeps [I]: from a state in [I], the state [m] leaves, however it
    ends, is in [I]. *)
Definition keeps (I : Piano -> Prop) {A} (m : M A) : Prop :=
  forall p, I p -> I (final (m p)).

(** The object after a sequence of method calls, each left where it
    ended. *)
Definition invoke_all (ms : list method) (p : Piano) : Piano :=
  foldl (fun q m => final (invoke m q)) p ms.

Lemma keeps_ret (I : Piano -> Prop) {A} (a : A) : keeps I (ret a).
Proof. intros p Hp. exact Hp. Qed.

Lemma keeps_raise (I : Piano -> Prop) {A} (e : exn) : keeps I (@raise _ A e).
Proof. intros p Hp. exact Hp. Qed.

Lemma keeps_get (I : Piano -> Prop) {A} (f : Piano -> A) : keeps I (get f).
Proof. intros p Hp. exact Hp. Qed.

Lemma keeps_bind (I : Piano -> Prop) {A B} (m : M A) (k : A -> M B) :
  keeps I m -> (forall a, keeps I (k a)) -> keeps I (bind m k).
Proof.
  intros Hm Hk p Hp. unfold bind. specialize (Hm p Hp).
  destruct (m p) as [a p'|e p']; simpl in *; [by apply Hk | done].
Qed.

Lemma keeps_modify (I : Piano -> Prop) (f : Piano -> Piano) :
  (forall p, I p -> I (f p)) -> keeps I (modify f).
Proof. intros Hf p Hp. by apply Hf. Qed.

Lemma keeps_call (I : Piano -> Prop) (e : event) :
  (forall p, I p -> I (log_event e p)) -> keeps I (call e).
Proof. apply keeps_modify. Qed.

Ltac keep_steps tac :=
  repeat first
    [ apply keeps_ret
    | apply keeps_raise
    | apply keeps_get
    | apply keeps_bind; [| intros]
    | apply keeps_call; solve [tac]
    | apply keeps_modify; solve [tac]
    | match goal with
      | |- keeps _ (if ?b then _ else _) => destruct b
      | |- keeps _ (match ?x with _ => _ end) => destruct x
      end ].

Ltac unfold_methods :=
  unfold _unload_sound_fonts, load_sound_fonts, _unload_sound_fonts,
    load_sound_font, _start_audio_output, _stop_audio_output,
    load_instrument, play, stop, _lint_music_container,
    distinct_notes_in_container, _play_music_container.

Lemma invoke_all_reachable (ms : list method) (p : Piano) :
  reachable p -> reachable (invoke_all ms p).
Proof.
  revert p. induction ms as [|m ms IH]; intros p Hp; simpl; [done |].
  apply IH. by constructor.
Qed.

(** ** The configured driver *)

Lemma invoke_keeps_driver (d : option string) (m : method) :
  keeps (fun q => _current_audio_driver q = d) (invoke m).
Proof.
  destruct m; simpl; unfold_methods;
    keep_steps ltac:(intros q Hq; exact Hq).
Qed.

Lemma invoke_all_keeps_driver (ms : list method) (p : Piano) :
  _current_audio_driver (invoke_all ms p) = _current_audio_driver p.
Proof.
  revert p. induction ms as [|m ms IH]; intros p; simpl; [done |].
  rewrite IH. by apply (invoke_keeps_driver (_current_audio_driver p) m).
Qed.

(** The driver given to the constructor is stored as it is and no method
    changes it: an object built with a driver value that is not allowed
    raises [ValueError] on every live [play] of a container that passes
    validation, whatever was called on it before, and plays nothing. *)
Theorem disallowed_driver_never_plays_live
    sound_fonts_path audio_driver instr (p : Piano)
    (ms : list method) (mc : music_container) secs stop_rec :
  new_Piano sound_fonts_path audio_driver instr = Return tt p ->
  audio_driver ∉ VALID_AUDIO_DRIVERS ->
  on_keyboard mc ->
  play mc None secs stop_rec (invoke_all ms p)
    = Raise ValueError (invoke_all ms p).
Proof.
  intros Hnew Hd Hon.
  apply new_Piano_returns in Hnew as (_ & _ & Hdrv & _).
  destruct (on_keyboard_engine_play mc Hon) as [e He].
  rewrite (play_live mc e) by done.
  rewrite start_invalid_driver; [done |].
  by rewrite invoke_all_keeps_driver, Hdrv.
Qed.

(** ** Sound fonts *)

(** The flag is set and the engine holds no font but the one [sfid]
    names. *)
Definition font_inv (p : Piano) : Prop :=
  _sound_fonts_loaded p = true
  /\ forall x, x ∈ fonts_held (engine_log p) -> x = sfid p.

Lemma filter_ne_all (a : Z) (l : list Z) :
  (forall x, x ∈ l -> x = a) -> filter (fun x => x ≠ a) l = [].
Proof.
  induction l as [|y l IH]; intros Hall; [done |].
  rewrite filter_cons. destruct (decide (y ≠ a)) as [Hne|_].
  - exfalso. apply Hne, Hall. by left.
  - apply IH. intros x Hx. apply Hall. by right.
Qed.

Lemma fonts_held_sfload (sf2 : string) (id : Z) (log : list event) :
  fonts_held (Sfload sf2 id :: log) =
    if id =? -1 then fonts_held log else id :: fonts_held log.
Proof. reflexivity. Qed.

Lemma fonts_held_unloaded (p : Piano) :
  font_inv p -> fonts_held (Sfunload (sfid p) :: engine_log p) = [].
Proof. intros [_ Hf]. simpl. by apply filter_ne_all. Qed.

Lemma unload_when_loaded (p : Piano) :
  _sound_fonts_loaded p = true ->
  _unload_sound_fonts p = Return tt (log_event (Sfunload (sfid p)) p).
Proof.
  intros Hl. unfold _unload_sound_fonts, bind, get, call, modify.
  by rewrite Hl.
Qed.

Lemma keeps_font_inv_unload : keeps font_inv _unload_sound_fonts.
Proof.
  intros p Hp. rewrite unload_when_loaded by apply Hp.
  split; [apply Hp |]. simpl engine_log.
  rewrite fonts_held_unloaded by done. by intros x ?%elem_of_nil.
Qed.

(** What [load_sound_fonts] leaves, from a state in [font_inv]. *)
Lemma load_sound_fonts_final (path : path_value) (p : Piano) :
  font_inv p ->
  let q := final (load_sound_fonts path p) in
  _sound_fonts_loaded q = true
  /\ fonts_held (engine_log q) = (if sfid q =? -1 then [] else [sfid q])
  /\ (sfid q = -1 <-> exists e, raised (load_sound_fonts path p) = Some e).
Proof.
  intros Hp. pose proof (fonts_held_unloaded p Hp) as Hu.
  destruct Hp as [Hl _]. rewrite load_sound_fonts_unfold.
  unfold log_after_unload. rewrite Hl.
  destruct (Z.eqb_spec
              (sfload (Sfunload (sfid p) :: engine_log p) (path_str path)) (-1))
    as [Heq|Hne]; cbn [final raised _sound_fonts_loaded engine_log sfid].
  - split; [done |]. split.
    + rewrite fonts_held_sfload, Hu. by destruct (_ =? _).
    + split; eauto.
  - split; [done |]. split.
    + rewrite fonts_held_sfload, Hu. reflexivity.
    + split; [done | intros [e He]; discriminate].
Qed.

Lemma keeps_font_inv_load (path : path_value) :
  keeps font_inv (load_sound_fonts path).
Proof.
  intros p Hp. destruct (load_sound_fonts_final path p Hp) as (Hl & Hf & _).
  split; [done |]. rewrite Hf.
  destruct (sfid (final (load_sound_fonts path p)) =? -1).
  - by intros x ?%elem_of_nil.
  - by intros x ->%list_elem_of_singleton.
Qed.

Lemma invoke_keeps_font_inv (m : method) : keeps font_inv (invoke m).
Proof.
  destruct m; simpl;
    [ apply keeps_font_inv_unload | apply keeps_font_inv_load | .. ];
    unfold_methods;
    keep_steps ltac:(intros q Hq; exact Hq).
Qed.

Lemma new_Piano_font_inv sound_fonts_path audio_driver instr (p : Piano) :
  new_Piano sound_fonts_path audio_driver instr = Return tt p -> font_inv p.
Proof.
  unfold new_Piano, __init__, load_sound_fonts, load_sound_font, load_instrument.
  unfold bind, get, modify, call, ret, raise; simpl.
  destruct (Z.eqb_spec (sfload [] (path_str (Path sound_fonts_path))) (-1))
    as [Heq|Hne]; simpl; [discriminate |].
  assert (forall log,
             fonts_held log = [] ->
             forall x,
               x ∈ fonts_held
                     (Sfload (path_str (Path sound_fonts_path))
                        (sfload [] (path_str (Path sound_fonts_path))) :: log) ->
               x = sfload [] (path_str (Path sound_fonts_path))) as Hheld.
  { intros log Hlog x. rewrite fonts_held_sfload, Hlog.
    destruct (Z.eqb_spec (sfload [] (path_str (Path sound_fonts_path))) (-1));
      [done |]. by intros ->%list_elem_of_singleton. }
  destruct (path_eqb _ _); simpl.
  - destruct (in_default_instruments instr); simpl; [| discriminate].
    destruct (default_instrument_number instr); simpl; [| discriminate].
    intros [= <-]. split; [done |]. intros x. exact (Hheld [] eq_refl x).
  - intros [= <-]. split; [done |]. intros x. exact (Hheld [] eq_refl x).
Qed.

Lemma reachable_font_inv (p : Piano) : reachable p -> font_inv p.
Proof.
  induction 1 as [sfp drv ins p Hnew | m p _ IH].
  - by eapply new_Piano_font_inv.
  - by apply invoke_keeps_font_inv.
Qed.

(** No method resets the sound-font flag: in every state an object can
    be in it is true, so [_unload_sound_fonts] calls [sfunload] on [sfid]
    each time it is called, a second time in a row as well. *)
Theorem sound_fonts_flag_never_reset (p : Piano) :
  reachable p ->
  _sound_fonts_loaded p = true
  /\ _unload_sound_fonts p = Return tt (log_event (Sfunload (sfid p)) p)
  /\ engine_log (final (_unload_sound_fonts (final (_unload_sound_fonts p))))
       = Sfunload (sfid p) :: Sfunload (sfid p) :: engine_log p.
Proof.
  intros [Hl _]%reachable_font_inv.
  split; [done |]. split; [by apply unload_when_loaded |].
  rewrite (unload_when_loaded p) by done. cbn [final].
  by rewrite unload_when_loaded.
Qed.

(** The engine never holds a font other than the one [sfid] names, and
    after a [load_sound_fonts] that returns it holds the new font and no
    other. *)
Theorem engine_holds_only_current_font (p : Piano) :
  reachable p ->
  (forall x, x ∈ fonts_held (engine_log p) -> x = sfid p)
  /\ (forall path p',
        load_sound_fonts path p = Return tt p' ->
        sfid p' <> -1 /\ fonts_held (engine_log p') = [sfid p']).
Proof.
  intros Hp%reachable_font_inv. split; [apply Hp |].
  intros path p' Hret.
  destruct (load_sound_fonts_final path p Hp) as (_ & Hf & Hiff).
  rewrite Hret in Hf, Hiff. cbn [final raised] in Hf, Hiff.
  assert (sfid p' <> -1) as Hne.
  { intros Heq. apply Hiff in Heq as [e He]. discriminate. }
  split; [done |]. rewrite Hf.
  by destruct (Z.eqb_spec (sfid p') (-1)).
Qed.

(** After a [load_sound_fonts] that raised, the flag is still true
    although the engine holds no font at all, and [sfid] is [-1]. *)
Theorem failed_load_leaves_flag_set (path : path_value) (p : Piano) :
  reachable p ->
  (exists e, raised (load_sound_fonts path p) = Some e) ->
  _sound_fonts_loaded (final (load_sound_fonts path p)) = true
  /\ sfid (final (load_sound_fonts path p)) = -1
  /\ fonts_held (engine_log (final (load_sound_fonts path p))) = [].
Proof.
  intros Hp%reachable_font_inv Hraise.
  destruct (load_sound_fonts_final path p Hp) as (Hl & Hf & Hiff).
  apply Hiff in Hraise. split; [done |]. split; [done |].
  rewrite Hf, Hraise. reflexivity.
Qed.

(** A font given as a [str] is stored as a [str], which never equals the
    default [Path]: after such a [load_sound_fonts] has returned,
    [load_instrument] applies no guard to any argument and hands it to the
    engine as it is, also when the string spells the default font file. *)
Theorem str_path_disables_instrument_guard (sf2 : string) (p : Piano) :
  sfload (log_after_unload p) sf2 <> -1 ->
  exists p',
    load_sound_fonts (PyStr sf2) p = Return tt p'
    /\ _sound_fonts_path p' = PyStr sf2
    /\ forall i,
         load_instrument i p' =
           Return tt (set_instrument_attr i (log_event (SetInstrument 1 i 0) p')).
Proof.
  intros Hne. rewrite load_sound_fonts_unfold. cbn [path_str].
  destruct (Z.eqb_spec (sfload (log_after_unload p) sf2) (-1)) as [|_]; [done |].
  eexists. split; [reflexivity |]. split; [reflexivity |].
  intros i. by rewrite load_instrument_unfold.
Qed.

(** ** The constructor *)

Lemma in_default_instruments_number (i : instrument_value) :
  in_default_instruments i = true ->
  exists number, default_instrument_number i = Some number.
Proof.
  destruct i as [name|n]; [| discriminate].
  unfold in_default_instruments, default_instrument_number.
  intros Hin%bool_decide_eq_true. by apply dict_get_is_Some.
Qed.

Lemma new_Piano_unfold sound_fonts_path audio_driver instr :
  new_Piano sound_fonts_path audio_driver instr =
    if sfload [] (path_str (Path sound_fonts_path)) =? -1
    then Raise (Exception "Could not load sound fonts")
           (mkPiano (Path sound_fonts_path) false None false (InstrInt 0)
              (sfload [] (path_str (Path sound_fonts_path)))
              [Sfload (path_str (Path sound_fonts_path))
                 (sfload [] (path_str (Path sound_fonts_path)))])
    else load_instrument instr
           (mkPiano (Path sound_fonts_path) true audio_driver false instr
              (sfload [] (path_str (Path sound_fonts_path)))
              [Sfload (path_str (Path sound_fonts_path))
                 (sfload [] (path_str (Path sound_fonts_path)))]).
Proof.
  cbv [new_Piano __init__ load_sound_fonts load_sound_font bind get modify call
       ret raise blank set_sound_fonts_path set_sound_fonts_loaded
       set_current_audio_driver set_audio_driver_is_active set_instrument_attr
       set_sfid log_event _sound_fonts_path _sound_fonts_loaded
       _current_audio_driver _audio_driver_is_active instrument sfid
       engine_log negb].
  destruct (sfload [] (path_str (Path sound_fonts_path)) =? -1); reflexivity.
Qed.

(** The three ways [Piano.__init__] ends.  It raises [Exception] when the
    engine cannot load the font; with the default font path it raises
    [ValueError] for an instrument that is not a default name, the font
    being loaded by then; otherwise it returns with the font loaded, the
    instrument set on channel 1, bank 0, audio output not started and the
    driver stored as given, unchecked. *)
Theorem constructor_outcomes sound_fonts_path audio_driver instr :
  let file := path_str (Path sound_fonts_path) in
  let id := sfload [] file in
  let guarded := path_eqb (Path sound_fonts_path) DEFAULT_SOUND_FONTS in
  (id = -1 ->
     raised (new_Piano sound_fonts_path audio_driver instr)
       = Some (Exception "Could not load sound fonts"))
  /\ (id <> -1 -> guarded = true -> in_default_instruments instr = false ->
      raised (new_Piano sound_fonts_path audio_driver instr) = Some ValueError
      /\ engine_log (final (new_Piano sound_fonts_path audio_driver instr))
           = [Sfload file id])
  /\ (id <> -1 -> (guarded = true -> in_default_instruments instr = true) ->
      exists sent,
        new_Piano sound_fonts_path audio_driver instr =
          Return tt (mkPiano (Path sound_fonts_path) true audio_driver false
                       instr id [SetInstrument 1 sent 0; Sfload file id])
        /\ (if guarded
            then exists number,
                default_instrument_number instr = Some number
                /\ sent = InstrInt number
            else sent = instr)).
Proof.
  intros file id guarded. subst file id guarded. rewrite new_Piano_unfold.
  destruct (Z.eqb_spec (sfload [] (path_str (Path sound_fonts_path))) (-1))
    as [Heq|Hne].
  - split; [done |]. split; done.
  - split; [done |]. rewrite load_instrument_unfold.
    cbn [_sound_fonts_path].
    destruct (path_eqb (Path sound_fonts_path) DEFAULT_SOUND_FONTS).
    + destruct (in_default_instruments instr) eqn:Hin.
      * split; [done |]. intros _ _.
        destruct (in_default_instruments_number instr Hin) as [number Hnum].
        rewrite Hnum. exists (InstrInt number). split; [reflexivity | eauto].
      * split; [done |]. intros _ Himp. by specialize (Himp eq_refl).
    + split; [done |]. intros _ _. exists instr. split; reflexivity.
Qed.

(** ** Validation *)

(** [_lint_music_container] never touches the object; it returns exactly
    when every note string of the container is a key name, so never for
    an integer or a [PianoKey]; and for the classes it is written for it
    raises [ValueError] exactly when some note string is not a key name. *)
Theorem lint_accepts_iff_on_keyboard (mc : music_container) (p : Piano) :
  final (_lint_music_container mc p) = p
  /\ (_lint_music_container mc p = Return tt p <-> on_keyboard mc)
  /\ (linted_class mc ->
      (_lint_music_container mc p = Raise ValueError p
       <-> has_note_off_keyboard mc)).
Proof.
  split; [apply lint_final |].
  destruct (lint_cases mc p) as [[Hlint Hoff] | [[Hlint Hon] | (x & Hlint & Hn)]];
    rewrite Hlint.
  - split; [| done]. split; [discriminate |].
    intros Hon. destruct (off_keyboard_not_on mc Hoff Hon).
  - split; [done |]. intros _. split; [discriminate |].
    intros Hoff. destruct (off_keyboard_not_on mc Hoff Hon).
  - split.
    + split; [discriminate |]. intros (l & Hl & _). congruence.
    + intros Hclass%linted_class_note_strings. done.
Qed.

(** ** Audio output *)

(** The audio flag is false only when the engine has no driver, and
    every delete call found one: before each delete in the log there is a
    start with no delete after it. *)
Theorem audio_flag_mirrors_engine (p : Piano) :
  reachable p ->
  (_audio_driver_is_active p = false ->
   ~ started_since_last_stop (engine_log p))
  /\ (forall recent older,
        engine_log p = recent ++ DeleteAudioDriver :: older ->
        started_since_last_stop older).
Proof.
  intros [Hflag Hguard]%reachable_audio_inv. split.
  - intros Ha Hs%driver_started_spec. congruence.
  - intros recent older Hlog. rewrite Hlog in Hguard.
    apply deletes_guarded_app in Hguard. simpl in Hguard.
    apply andb_true_iff in Hguard as [Hs _]. by apply driver_started_spec.
Qed.

(** ** Program resets *)

Definition is_reset (e : event) : bool :=
  match e with ProgramReset => true | _ => false end.

(** A call that creates or deletes the audio driver. *)
Definition is_driver_call (e : event) : bool := is_start e || is_delete e.

(** Each driver call in the log has [ProgramReset] as the call made right
    after it. *)
Fixpoint resets_follow (log : list event) : bool :=
  match log with
  | [] => true
  | e :: older =>
      match older with
      | e' :: _ => if is_driver_call e' then is_reset e else true
      | [] => true
      end && resets_follow older
  end.

(** The most recent call is not a driver call. *)
Definition settled (log : list event) : bool :=
  match log with
  | e :: _ => negb (is_driver_call e)
  | [] => true
  end.

Definition reset_inv (p : Piano) : Prop :=
  settled (engine_log p) = true /\ resets_follow (engine_log p) = true.

Lemma reset_inv_log_event (e : event) (p : Piano) :
  is_driver_call e = false -> reset_inv p -> reset_inv (log_event e p).
Proof.
  intros He [Hs Hr]. split; cbn [log_event engine_log settled resets_follow].
  - by rewrite He.
  - rewrite Hr, andb_true_r.
    destruct (engine_log p) as [|e' older]; [done |].
    cbn [settled] in Hs. apply negb_true_iff in Hs. by rewrite Hs.
Qed.

Lemma reset_inv_driver_call (e : event) (p : Piano) :
  reset_inv p -> reset_inv (log_event ProgramReset (log_event e p)).
Proof.
  intros [Hs Hr]. split; [done |].
  cbn [log_event engine_log resets_follow is_reset]. rewrite Hr, andb_true_r.
  destruct (is_driver_call e); cbn [andb].
  - destruct (engine_log p) as [|e' older]; [done |].
    cbn [settled] in Hs. apply negb_true_iff in Hs. by rewrite Hs.
  - destruct (engine_log p) as [|e' older]; [done |].
    cbn [settled] in Hs. apply negb_true_iff in Hs. by rewrite Hs.
Qed.

Lemma keeps_reset_inv_start : keeps reset_inv _start_audio_output.
Proof.
  intros p Hp.
  destruct (decide (_current_audio_driver p ∈ VALID_AUDIO_DRIVERS)) as [Hd|Hd].
  - destruct (_audio_driver_is_active p) eqn:Ha.
    + by rewrite start_already_active.
    + rewrite start_inactive by done.
      exact (reset_inv_driver_call _ p Hp).
  - by rewrite start_invalid_driver.
Qed.

Lemma keeps_reset_inv_stop : keeps reset_inv _stop_audio_output.
Proof.
  intros p Hp. destruct (_audio_driver_is_active p) eqn:Ha.
  - rewrite stop_active by done. exact (reset_inv_driver_call _ p Hp).
  - by rewrite stop_inactive.
Qed.

Lemma invoke_keeps_reset_inv (m : method) : keeps reset_inv (invoke m).
Proof.
  destruct m; simpl;
    [ | | apply keeps_reset_inv_start | apply keeps_reset_inv_stop | .. ];
    unfold _unload_sound_fonts, load_sound_fonts, _unload_sound_fonts,
      load_sound_font, load_instrument, play, stop, _lint_music_container,
      distinct_notes_in_container, _play_music_container;
    repeat first
      [ apply keeps_reset_inv_start
      | apply keeps_reset_inv_stop
      | apply keeps_ret
      | apply keeps_raise
      | apply keeps_get
      | apply keeps_bind; [| intros]
      | apply keeps_call; intros q Hq; by apply reset_inv_log_event
      | apply keeps_modify; intros q Hq; exact Hq
      | match goal with
        | |- keeps _ (if ?b then _ else _) => destruct b
        | |- keeps _ (match ?x with _ => _ end) => destruct x
        end ].
Qed.

Lemma new_Piano_reset_inv sound_fonts_path audio_driver instr (p : Piano) :
  new_Piano sound_fonts_path audio_driver instr = Return tt p -> reset_inv p.
Proof.
  intros (_ & _ & _ & Hq)%new_Piano_returns. split.
  - destruct Hq as [|e log [Hs Hd] _]; [done |].
    cbn [settled]. unfold is_driver_call. by rewrite Hs, Hd.
  - induction Hq as [|e log [Hs Hd] Hq IH]; [done |].
    cbn [resets_follow]. rewrite IH, andb_true_r.
    destruct Hq as [|e' log' [Hs' Hd'] _]; [done |].
    unfold is_driver_call. by rewrite Hs', Hd'.
Qed.

Lemma resets_follow_split (recent : list event) (e : event) (older : list event) :
  resets_follow (recent ++ e :: older) = true ->
  recent <> [] ->
  is_driver_call e = true ->
  exists newer, recent = newer ++ [ProgramReset].
Proof.
  induction recent as [|r recent IH]; [done |].
  intros Hr _ He. cbn [app resets_follow] in Hr.
  apply andb_true_iff in Hr as [Hhd Htl].
  destruct recent as [|r' recent].
  - cbn [app] in Hhd. rewrite He in Hhd.
    destruct r; try discriminate. by exists [].
  - destruct (IH Htl) as [newer Hnewer]; [done | done |].
    exists (r :: newer). by rewrite Hnewer.
Qed.

(** The call made right after every start and every delete of the audio
    driver is a program reset. *)
Theorem driver_calls_are_followed_by_reset (p : Piano) :
  reachable p ->
  forall recent e older,
    engine_log p = recent ++ e :: older ->
    is_driver_call e = true ->
    exists newer, recent = newer ++ [ProgramReset].
Proof.
  intros Hp.
  assert (reset_inv p) as [Hs Hr].
  { induction Hp as [sfp drv ins p Hnew | m p _ IH].
    - by eapply new_Piano_reset_inv.
    - by apply invoke_keeps_reset_inv. }
  intros recent e older Hlog He. rewrite Hlog in Hs, Hr.
  apply (resets_follow_split recent e older); [done | | done].
  intros ->. cbn [app settled] in Hs. by rewrite He in Hs.
Qed.

(** ** What each group of methods leaves alone *)

(** A call that loads or unloads a font or sets the instrument. *)
Definition is_setup_call (e : event) : bool :=
  match e with
  | Sfload _ _ | Sfunload _ | SetInstrument _ _ _ => true
  | _ => false
  end.

Fixpoint setup_calls (log : list event) : list event :=
  match log with
  | [] => []
  | e :: older =>
      if is_setup_call e then e :: setup_calls older else setup_calls older
  end.

Fixpoint other_calls (log : list event) : list event :=
  match log with
  | [] => []
  | e :: older =>
      if is_setup_call e then other_calls older else e :: other_calls older
  end.

(** The sound set-up: the font path, flag and id, the instrument, the
    driver, and the set-up calls made. *)
Definition sound_setup (p : Piano)
    : path_value * bool * Z * instrument_value * option string * list event :=
  (_sound_fonts_path p, _sound_fonts_loaded p, sfid p, instrument p,
   _current_audio_driver p, setup_calls (engine_log p)).

(** The audio side: the flag and the calls that are not set-up calls. *)
Definition audio_side (p : Piano) : bool * list event :=
  (_audio_driver_is_active p, other_calls (engine_log p)).

(** [play], [stop] and the audio-output methods never load or unload a
    font and never set an instrument; they leave the font path, flag and
    id, the instrument and the driver as they are, however they end. *)
Theorem playing_leaves_sound_setup (m : method) (p : Piano) :
  match m with
  | Call_play _ _ _ _ | Call_stop _
  | Call_start_audio_output | Call_stop_audio_output => True
  | _ => False
  end ->
  sound_setup (final (invoke m p)) = sound_setup p.
Proof.
  intros Hm.
  assert (keeps (fun q => sound_setup q = sound_setup p) (invoke m)) as Hk.
  { destruct m; try done; simpl; unfold_methods;
      keep_steps ltac:(intros q Hq; exact Hq). }
  by apply Hk.
Qed.

(** [load_sound_fonts], [load_instrument] and [_unload_sound_fonts] never
    start or stop audio output, play or record: the audio flag and the
    calls other than set-up calls are as before, however they end. *)
Theorem setup_leaves_audio_side (m : method) (p : Piano) :
  match m with
  | Call_load_sound_fonts _ | Call_load_instrument _
  | Call_unload_sound_fonts => True
  | _ => False
  end ->
  audio_side (final (invoke m p)) = audio_side p.
Proof.
  intros Hm.
  assert (keeps (fun q => audio_side q = audio_side p) (invoke m)) as Hk.
  { destruct m; try done; simpl; unfold_methods;
      keep_steps ltac:(intros q Hq; exact Hq). }
  by apply Hk.
Qed.

(** ** [stop] *)

Definition is_stop_call (e : event) : bool :=
  match e with
  | StopNote _ | StopNoteContainer _ | StopEverything => true
  | _ => false
  end.

(** [stop] does not validate against the keyboard: a container with a
    note off the keyboard, which [play] turns away with [ValueError]
    before any engine call, is taken by [stop], which returns with one
    engine stop call logged; for a [Note], [Bar] or [Track] that call
    stops everything. *)
Theorem stop_skips_validation
    (mc : music_container) recording_file secs stop_rec (p : Piano) :
  linted_class mc ->
  has_note_off_keyboard mc ->
  play mc recording_file secs stop_rec p = Raise ValueError p
  /\ exists e,
       stop mc p = Return tt (log_event e p)
       /\ is_stop_call e = true
       /\ (match mc with
           | MCNote _ | MCBar _ | MCTrack _ => e = StopEverything
           | _ => True
           end).
Proof.
  intros Hclass Hoff. split.
  - destruct (lint_cases mc p) as [[Hlint _] | [[_ Hon] | (x & _ & Hn)]].
    + unfold play, bind at 1. by rewrite Hlint.
    + destruct (off_keyboard_not_on mc Hoff Hon).
    + by apply linted_class_note_strings in Hclass.
  - clear Hoff. destruct mc; simpl in *; try done;
      try (eexists; by repeat split).
    destruct Hclass as [n Hn]. rewrite Hn. eexists. by repeat split.
Qed.

(** ** Calls in a row *)

(** Two live [play] calls in a row start the audio driver at most once:
    the second finds it active and only plays. *)
Theorem live_plays_start_once
    (mc1 mc2 : music_container) secs1 secs2 stop1 stop2 (p : Piano) :
  on_keyboard mc1 -> on_keyboard mc2 ->
  _current_audio_driver p ∈ VALID_AUDIO_DRIVERS ->
  exists e1 e2,
    engine_play mc1 = Some e1 /\ engine_play mc2 = Some e2
    /\ raised (play mc1 None secs1 stop1 p) = None
    /\ raised (play mc2 None secs2 stop2
                 (final (play mc1 None secs1 stop1 p))) = None
    /\ engine_log (final (play mc2 None secs2 stop2
                            (final (play mc1 None secs1 stop1 p)))) =
         [e2; e1]
         ++ (if _audio_driver_is_active p then []
             else [ProgramReset; StartAudioOutput (_current_audio_driver p)])
         ++ engine_log p.
Proof.
  intros Hon1 Hon2 Hd.
  destruct (on_keyboard_engine_play mc1 Hon1) as [e1 He1].
  destruct (on_keyboard_engine_play mc2 Hon2) as [e2 He2].
  exists e1, e2. split; [done |]. split; [done |].
  rewrite (play_live mc1 e1) by done.
  destruct (_audio_driver_is_active p) eqn:Ha.
  - rewrite start_already_active by done. cbn [final raised].
    rewrite (play_live mc2 e2) by done.
    rewrite start_already_active by done. done.
  - rewrite start_inactive by done. cbn [final raised].
    rewrite (play_live mc2 e2) by done.
    rewrite start_already_active by done. done.
Qed.

(** ** The wav file *)

Fixpoint wav_closes (log : list event) : nat :=
  match log with
  | [] => 0%nat
  | WavClose :: older => Datatypes.S (wav_closes older)
  | _ :: older => wav_closes older
  end.

(** Only a recording [play] with [stop_recording] true closes the wav
    file: no other call, of any method, does. *)
Theorem only_stop_recording_closes_wav (m : method) (p : Piano) :
  (forall mc file secs, m <> Call_play mc (Some file) secs true) ->
  wav_closes (engine_log (final (invoke m p))) = wav_closes (engine_log p).
Proof.
  intros Hm.
  assert (keeps (fun q => wav_closes (engine_log q) = wav_closes (engine_log p))
            (invoke m)) as Hk.
  { destruct m as [| | | | |mc [file|] secs [|]|];
      try (by destruct (Hm mc file secs));
      simpl; unfold_methods;
      keep_steps ltac:(intros q Hq; exact Hq). }
  by apply Hk.
Qed.

(** ** The instrument *)

(** The most recent [set_instrument] call. *)
Fixpoint last_set_instrument (log : list event) : option event :=
  match log with
  | [] => None
  | SetInstrument c i b :: _ => Some (SetInstrument c i b)
  | _ :: older => last_set_instrument older
  end.

(** What the engine is sent for [i]: the argument itself, or the number
    of a default name. *)
Definition sent_for (i : instrument_value) (sent : instrument_value) : Prop :=
  sent = i \/ exists number, default_instrument_number i = Some number
                           /\ sent = InstrInt number.

Definition instrument_inv (p : Piano) : Prop :=
  exists sent,
    last_set_instrument (engine_log p) = Some (SetInstrument 1 sent 0)
    /\ sent_for (instrument p) sent.

Lemma keeps_instrument_inv_load (i : instrument_value) :
  keeps instrument_inv (load_instrument i).
Proof.
  intros p Hp. rewrite load_instrument_unfold.
  destruct (path_eqb _ _).
  - destruct (in_default_instruments i); [| done].
    destruct (default_instrument_number i) as [number|] eqn:Hnum; [| done].
    exists (InstrInt number). split; [reflexivity |]. right. eauto.
  - exists i. split; [reflexivity |]. by left.
Qed.

Lemma invoke_keeps_instrument_inv (m : method) : keeps instrument_inv (invoke m).
Proof.
  destruct m; simpl;
    [ | | | | apply keeps_instrument_inv_load | .. ];
    unfold_methods;
    keep_steps ltac:(intros q Hq; exact Hq).
Qed.

Lemma new_Piano_instrument_inv sound_fonts_path audio_driver instr (p : Piano) :
  new_Piano sound_fonts_path audio_driver instr = Return tt p ->
  instrument_inv p.
Proof.
  rewrite new_Piano_unfold.
  destruct (_ =? _); [discriminate |].
  rewrite load_instrument_unfold. cbn [_sound_fonts_path].
  destruct (path_eqb _ _).
  - destruct (in_default_instruments instr); [| discriminate].
    destruct (default_instrument_number instr) as [number|] eqn:Hnum;
      [| discriminate].
    intros [= <-]. exists (InstrInt number). split; [reflexivity |].
    right. eauto.
  - intros [= <-]. exists instr. split; [reflexivity |]. by left.
Qed.

(** The [instrument] attribute always names what the engine was last
    told: the most recent [set_instrument] call is on channel 1, bank 0,
    and carries the attribute's value or, for a default name, its
    number. *)
Theorem instrument_attribute_in_sync (p : Piano) :
  reachable p ->
  exists sent,
    last_set_instrument (engine_log p) = Some (SetInstrument 1 sent 0)
    /\ (sent = instrument p
        \/ exists number,
             default_instrument_number (instrument p) = Some number
             /\ sent = InstrInt number).
Proof.
  induction 1 as [sfp drv ins p Hnew | m p _ IH].
  - by eapply new_Piano_instrument_inv.
  - by apply invoke_keeps_instrument_inv.
Qed.

End PianoFrames.

(** * These statements in the concrete world *)

Section FrameExamples.

Import Sample.

Lemma sample_winmm_new :
  new_Piano DEFAULT_SOUND_FONTS (Some "winmm") (InstrStr "Acoustic Grand Piano")
    = Return tt piano_winmm.
Proof. vm_compute. reflexivity. Defined.

Lemma sample_playing_reachable : reachable piano_playing.
Proof.
  exact (reachable_invoke (Call_play c4 None 4 true) _ sample_piano_reachable).
Defined.

Lemma disallowed_driver_never_plays_live_witness :
  let calls := [Call_play c_major_bar (Some "out.wav") 4 false;
                Call_load_instrument (InstrStr "Clavi")] in
  (Some "winmm" ∉ VALID_AUDIO_DRIVERS)
  /\ on_keyboard c4
  /\ play c4 None 4 true (invoke_all calls piano_winmm)
       = Raise ValueError (invoke_all calls piano_winmm).
Proof.
  split; [exact sample_winmm_not_allowed |].
  split; [exact sample_c4_on_keyboard |].
  exact (disallowed_driver_never_plays_live _ _ _ piano_winmm _ c4 4 true
           sample_winmm_new sample_winmm_not_allowed sample_c4_on_keyboard).
Defined.

Lemma sound_fonts_flag_never_reset_witness :
  reachable piano_playing
  /\ _sound_fonts_loaded (final (_unload_sound_fonts piano_playing)) = true
  /\ engine_log (final (_unload_sound_fonts (final (_unload_sound_fonts piano_playing))))
       = Sfunload 1 :: Sfunload 1 :: engine_log piano_playing.
Proof.
  split; [exact sample_playing_reachable |].
  split; [vm_compute; reflexivity |].
  exact (proj2 (proj2 (sound_fonts_flag_never_reset piano_playing
                         sample_playing_reachable))).
Defined.

Lemma engine_holds_only_current_font_witness :
  reachable piano_playing
  /\ load_sound_fonts DEFAULT_SOUND_FONTS piano_playing
       = Return tt (final (load_sound_fonts DEFAULT_SOUND_FONTS piano_playing))
  /\ fonts_held (engine_log (final (load_sound_fonts DEFAULT_SOUND_FONTS piano_playing)))
       = [sfid (final (load_sound_fonts DEFAULT_SOUND_FONTS piano_playing))].
Proof.
  assert (load_sound_fonts DEFAULT_SOUND_FONTS piano_playing
          = Return tt (final (load_sound_fonts DEFAULT_SOUND_FONTS piano_playing)))
    as Hret by (vm_compute; reflexivity).
  split; [exact sample_playing_reachable |]. split; [exact Hret |].
  exact (proj2 (proj2 (engine_holds_only_current_font piano_playing
                         sample_playing_reachable) _ _ Hret)).
Defined.

Lemma failed_load_leaves_flag_set_witness :
  reachable piano_playing
  /\ raised (load_sound_fonts (PyStr "missing.sf2") piano_playing)
       = Some (Exception "Could not load sound fonts")
  /\ _sound_fonts_loaded (final (load_sound_fonts (PyStr "missing.sf2") piano_playing))
       = true
  /\ fonts_held (engine_log (final (load_sound_fonts (PyStr "missing.sf2") piano_playing)))
       = [].
Proof.
  assert (raised (load_sound_fonts (PyStr "missing.sf2") piano_playing)
          = Some (Exception "Could not load sound fonts"))
    as Hraise by (vm_compute; reflexivity).
  split; [exact sample_playing_reachable |]. split; [exact Hraise |].
  destruct (failed_load_leaves_flag_set (PyStr "missing.sf2") piano_playing
              sample_playing_reachable (ex_intro _ _ Hraise))
    as (Hl & _ & Hf).
  split; [exact Hl | exact Hf].
Defined.

Lemma str_path_disables_instrument_guard_witness :
  sfload (log_after_unload piano) font_file <> -1
  /\ path_str DEFAULT_SOUND_FONTS = font_file
  /\ exists p',
       load_sound_fonts (PyStr font_file) piano = Return tt p'
       /\ load_instrument (InstrStr "Tuba") p' =
            Return tt (set_instrument_attr (InstrStr "Tuba")
                         (log_event (SetInstrument 1 (InstrStr "Tuba") 0) p')).
Proof.
  assert (sfload (log_after_unload piano) font_file <> -1) as Hne
    by (vm_compute; discriminate).
  split; [exact Hne |]. split; [reflexivity |].
  destruct (str_path_disables_instrument_guard font_file piano Hne)
    as (p' & Hload & _ & Hany).
  exists p'. split; [exact Hload | exact (Hany (InstrStr "Tuba"))].
Defined.

Lemma constructor_outcomes_witness :
  sfload [] (path_str (Path (PyStr font_file))) <> -1
  /\ path_eqb (Path (PyStr font_file)) DEFAULT_SOUND_FONTS = true
  /\ in_default_instruments (InstrInt 3) = false
  /\ raised (new_Piano (PyStr font_file) (Some "winmm") (InstrInt 3))
       = Some ValueError
  /\ engine_log (final (new_Piano (PyStr font_file) (Some "winmm") (InstrInt 3)))
       = [Sfload font_file 1].
Proof.
  assert (sfload [] (path_str (Path (PyStr font_file))) <> -1) as Hne
    by (vm_compute; discriminate).
  split; [exact Hne |]. split; [reflexivity |]. split; [reflexivity |].
  exact (proj1 (proj2 (constructor_outcomes (PyStr font_file) (Some "winmm")
                         (InstrInt 3)))
           Hne eq_refl eq_refl).
Defined.

Lemma lint_accepts_iff_on_keyboard_witness :
  linted_class c9
  /\ has_note_off_keyboard c9
  /\ _lint_music_container c9 piano = Raise ValueError piano
  /\ on_keyboard c_major_bar
  /\ _lint_music_container c_major_bar piano = Return tt piano.
Proof.
  split; [exact I |]. split; [exact sample_c9_off_keyboard |].
  split.
  - exact (proj2 (proj2 (proj2 (lint_accepts_iff_on_keyboard c9 piano)) I)
             sample_c9_off_keyboard).
  - split; [exact sample_bar_on_keyboard |].
    exact (proj2 (proj1 (proj2 (lint_accepts_iff_on_keyboard c_major_bar piano)))
             sample_bar_on_keyboard).
Defined.

(** [Piano()] after a live call and a recording call that leaves the file
    open: audio output is off, the driver deleted. *)
Lemma sample_recorded_reachable :
  reachable (final (play c_major_bar (Some "out.wav") 4 false piano_playing)).
Proof.
  exact (reachable_invoke (Call_play c_major_bar (Some "out.wav") 4 false) _
           sample_playing_reachable).
Defined.

Lemma audio_flag_mirrors_engine_witness :
  reachable (final (play c_major_bar (Some "out.wav") 4 false piano_playing))
  /\ _audio_driver_is_active
       (final (play c_major_bar (Some "out.wav") 4 false piano_playing)) = false
  /\ ~ started_since_last_stop
         (engine_log (final (play c_major_bar (Some "out.wav") 4 false piano_playing))).
Proof.
  split; [exact sample_recorded_reachable |]. split; [reflexivity |].
  exact (proj1 (audio_flag_mirrors_engine _ sample_recorded_reachable) eq_refl).
Defined.

Lemma driver_calls_are_followed_by_reset_witness :
  reachable piano_playing
  /\ engine_log piano_playing =
       [PlayNote "C-4"; ProgramReset]
       ++ StartAudioOutput None :: engine_log piano
  /\ is_driver_call (StartAudioOutput None) = true
  /\ exists newer, [PlayNote "C-4"; ProgramReset] = newer ++ [ProgramReset].
Proof.
  split; [exact sample_playing_reachable |]. split; [reflexivity |].
  split; [reflexivity |].
  exact (driver_calls_are_followed_by_reset piano_playing sample_playing_reachable
           [PlayNote "C-4"; ProgramReset] (StartAudioOutput None)
           (engine_log piano) eq_refl eq_refl).
Defined.

Lemma playing_leaves_sound_setup_witness :
  sound_setup (final (invoke (Call_play c_major_bar (Some "out.wav") 4 true)
                        piano_playing))
    = sound_setup piano_playing.
Proof.
  exact (playing_leaves_sound_setup
           (Call_play c_major_bar (Some "out.wav") 4 true) piano_playing I).
Defined.

Lemma setup_leaves_audio_side_witness :
  audio_side (final (invoke (Call_load_sound_fonts (PyStr "missing.sf2"))
                       piano_playing))
    = audio_side piano_playing.
Proof.
  exact (setup_leaves_audio_side
           (Call_load_sound_fonts (PyStr "missing.sf2")) piano_playing I).
Defined.

Lemma stop_skips_validation_witness :
  linted_class c9
  /\ has_note_off_keyboard c9
  /\ play c9 None 4 true piano_playing = Raise ValueError piano_playing
  /\ exists e, stop c9 piano_playing = Return tt (log_event e piano_playing)
       /\ e = StopEverything.
Proof.
  split; [exact I |]. split; [exact sample_c9_off_keyboard |].
  destruct (stop_skips_validation c9 None 4 true piano_playing I
              sample_c9_off_keyboard)
    as (Hplay & e & Hstop & _ & He).
  split; [exact Hplay |].
  exists e. split; [exact Hstop | exact He].
Defined.

Lemma sample_piano_driver_allowed : _current_audio_driver piano ∈ VALID_AUDIO_DRIVERS.
Proof. refine (bool_decide_unpack _ _). vm_compute. exact I. Defined.

Lemma live_plays_start_once_witness :
  on_keyboard c4 /\ on_keyboard c_major_bar
  /\ _current_audio_driver piano ∈ VALID_AUDIO_DRIVERS
  /\ engine_log (final (play c_major_bar None 4 true
                          (final (play c4 None 4 true piano)))) =
       [PlayBar [["C-4"; "E-4"]; ["G-4"]]; PlayNote "C-4"]
       ++ [ProgramReset; StartAudioOutput None]
       ++ engine_log piano.
Proof.
  split; [exact sample_c4_on_keyboard |].
  split; [exact sample_bar_on_keyboard |].
  split; [exact sample_piano_driver_allowed |].
  destruct (live_plays_start_once c4 c_major_bar 4 4 true true piano
              sample_c4_on_keyboard sample_bar_on_keyboard
              sample_piano_driver_allowed)
    as (e1 & e2 & He1 & He2 & _ & _ & Hlog).
  injection He1 as <-. injection He2 as <-. exact Hlog.
Defined.

Lemma only_stop_recording_closes_wav_witness :
  (forall mc file secs,
      Call_play c_major_bar (Some "out.wav") 4 false
        <> Call_play mc (Some file) secs true)
  /\ wav_closes (engine_log (final (invoke
                   (Call_play c_major_bar (Some "out.wav") 4 false)
                   piano_playing)))
     = wav_closes (engine_log piano_playing).
Proof.
  assert (forall mc file secs,
             Call_play c_major_bar (Some "out.wav") 4 false
               <> Call_play mc (Some file) secs true) as Hm
    by (intros mc file secs; discriminate).
  split; [exact Hm |].
  exact (only_stop_recording_closes_wav _ piano_playing Hm).
Defined.

Lemma instrument_attribute_in_sync_witness :
  reachable piano_playing
  /\ exists sent,
       last_set_instrument (engine_log piano_playing)
         = Some (SetInstrument 1 sent 0)
       /\ (sent = instrument piano_playing
           \/ exists number,
                default_instrument_number (instrument piano_playing) = Some number
                /\ sent = InstrInt number).
Proof.
  split; [exact sample_playing_reachable |].
  exact (instrument_attribute_in_sync piano_playing sample_playing_reachable).
Defined.

End FrameExamples.

(** * The recorded file *)

(** What the engine itself writes to the open wav file while it carries
    out a play call.  In mingus, [FluidSynthSequencer.sleep] renders and
    writes [int(seconds * 44100)] frames once a wav file is open (the two
    lines [play] repeats for [record_seconds]); [play_Bar] and
    [play_Track] sleep for the length of what they play, [play_Note] and
    [play_NoteContainer] do not sleep. *)
Class Recorder `{World} : Type := {
  frames_while_playing : event -> Z
}.

Section Recording.

Context `{R : Recorder}.









End Recording.

(** The engine of the concrete world writes as mingus does: nothing for
    a note or a chord, and for a bar or a track the frames of its chords,
    each a quarter note at 120 beats a minute, half a second. *)
Module SampleRecording.

Import Sample.

Definition quarter_note_frames : Z := 22050.

#[export] Instance recorder : Recorder := {|
  frames_while_playing := fun e =>
    match e with
    | PlayBar b => quarter_note_frames * Z.of_nat (length b)
    | PlayTrack t => quarter_note_frames * Z.of_nat (length (concat t))
    | _ => 0
    end
|}.

End SampleRecording.

Section RecordingExamples.

Import Sample SampleRecording.



End RecordingExamples.
